(** * cachette: the class [Cache] and the function [memoizer] of
    [src/memoizer.ts], as Rocq functions.

    The cache is a JavaScript [Map] from keys to [CacheObject]s together with
    the options given to the constructor.  A [Map] iterates in insertion
    order and compares keys with SameValueZero, so it is modelled as an
    association list in insertion order.  Every public method builds a
    [Promise] whose executor runs at once; a method is modelled as a function
    from the cache before the call to the way the promise settles and the
    cache after the call.  [Date.now()] and the allocation of a new object
    are read from an explicit [World]. *)

From Stdlib Require Import ZArith String Ascii List Bool Lia.
From Stdlib Require Import Decimal DecimalString DecimalZ DecimalPos.
Import ListNotations.

Local Open Scope string_scope.
Local Open Scope list_scope.
Local Open Scope Z_scope.

(** ** JavaScript values *)

(** An object is known by its reference; [obj_toString] is what its
    [toString()] returns (the empty string for an empty array) and
    [obj_json] what [JSON.stringify] returns for it. *)
Record JsObject : Type := mkObject {
  obj_ref : nat;
  obj_toString : string;
  obj_json : string
}.

(** [Key] and [Value] are [string | number | object] in the source; the
    methods test for [undefined] and [null] at run time, so both are part of
    the model.  Numbers are the integers. *)
Inductive JsValue : Type :=
| JsUndefined
| JsNull
| JsString (s : string)
| JsNumber (n : Z)
| JsObj (o : JsObject).

Definition Key : Type := JsValue.
Definition Value : Type := JsValue.

(** SameValueZero, the key comparison of [Map]: primitives by value, objects
    by reference. *)
Definition same_value_zero (a b : JsValue) : bool :=
  match a, b with
  | JsUndefined, JsUndefined => true
  | JsNull, JsNull => true
  | JsString s, JsString t => String.eqb s t
  | JsNumber n, JsNumber m => Z.eqb n m
  | JsObj o, JsObj p => Nat.eqb (obj_ref o) (obj_ref p)
  | _, _ => false
  end.

(** What [if (v)], [!v] and [v || w] look at. *)
Definition truthy (v : JsValue) : bool :=
  match v with
  | JsUndefined | JsNull => false
  | JsString s => negb (String.eqb s "")
  | JsNumber n => negb (Z.eqb n 0)
  | JsObj _ => true
  end.

(** [v === undefined || v === null] *)
Definition nullish (v : JsValue) : bool :=
  match v with
  | JsUndefined | JsNull => true
  | _ => false
  end.

(** [typeof v === 'object']; [typeof null] is ['object'] too. *)
Definition typeof_object (v : JsValue) : bool :=
  match v with
  | JsNull | JsObj _ => true
  | _ => false
  end.

Definition number_toString (n : Z) : string :=
  NilZero.string_of_int (Z.to_int n).

(** [v.toString()]; [None] where the call throws a [TypeError] because [v]
    is [undefined] or [null]. *)
Definition toString (v : JsValue) : option string :=
  match v with
  | JsUndefined | JsNull => None
  | JsString s => Some s
  | JsNumber n => Some (number_toString n)
  | JsObj o => Some (obj_toString o)
  end.

Definition quote_char : ascii := ascii_of_nat 34.
Definition backslash_char : ascii := ascii_of_nat 92.

(** The two escapes of [JSON.stringify] that printable text needs. *)
Fixpoint json_escape (s : string) : string :=
  match s with
  | EmptyString => EmptyString
  | String ch rest =>
      if (Ascii.eqb ch quote_char || Ascii.eqb ch backslash_char)%bool
      then String backslash_char (String ch (json_escape rest))
      else String ch (json_escape rest)
  end.

(** [JSON.stringify(v)], which is [undefined] for [undefined]. *)
Definition JSON_stringify (v : JsValue) : JsValue :=
  match v with
  | JsUndefined => JsUndefined
  | JsNull => JsString "null"
  | JsString s =>
      JsString (String quote_char
                  (json_escape s ++ String quote_char EmptyString)%string)
  | JsNumber n => JsString (number_toString n)
  | JsObj o => JsString (obj_json o)
  end.

(** The clock and the allocator the methods read. *)
Record World : Type := mkWorld {
  now : Z;
  next_ref : nat
}.

(** lodash's [cloneDeep]: a new object with the same content. *)
Definition cloneDeep (w : World) (v : JsValue) : JsValue :=
  match v with
  | JsObj o => JsObj (mkObject (next_ref w) (obj_toString o) (obj_json o))
  | _ => v
  end.

(** Two objects with the same content. *)
Definition structurally_equal (a b : JsValue) : bool :=
  match a, b with
  | JsObj o, JsObj p =>
      (String.eqb (obj_toString o) (obj_toString p)
       && String.eqb (obj_json o) (obj_json p))%bool
  | _, _ => same_value_zero a b
  end.

(** ** Options and entries *)

Inductive AddObjectAs : Type := clone | stringify | byReference.

Record Lifetime : Type := mkLifetime {
  duration : option Z;
  frequency : option Z
}.

Record CacheOptions : Type := mkCacheOptions {
  limit : option Z;
  duplicateAddThrows : option bool;
  throwOnEmpty : option bool;
  addObjectsAs : option AddObjectAs;
  lifetime : option Lifetime
}.

(** [options || {}] of the constructor *)
Definition no_options : CacheOptions :=
  mkCacheOptions None None None None None.

Record CacheObject : Type := mkCacheObject {
  key : Key;
  value : Value;
  timestamp : Z
}.

(** The second parameter of [add] and its default. *)
Record AddOptions : Type := mkAddOptions {
  addObjectAs : option AddObjectAs;
  throwOnExist : option bool
}.

Definition no_addOptions : AddOptions := mkAddOptions None None.

(** An optional boolean in a condition. *)
Definition truthy_flag (b : option bool) : bool :=
  match b with
  | Some true => true
  | _ => false
  end.

(** An optional number in a condition: [undefined] and [0] are falsy. *)
Definition truthy_number (n : option Z) : bool :=
  match n with
  | Some d => negb (Z.eqb d 0)
  | None => false
  end.

(** ** The [Map] *)

Definition JsMap : Type := list (Key * CacheObject).

Fixpoint map_get (k : Key) (m : JsMap) : option CacheObject :=
  match m with
  | [] => None
  | (k', e) :: rest => if same_value_zero k' k then Some e else map_get k rest
  end.

Definition map_has (k : Key) (m : JsMap) : bool :=
  match map_get k m with
  | Some _ => true
  | None => false
  end.

(** [Map.prototype.set]: an existing key keeps its place, a new key goes
    last. *)
Fixpoint map_set (k : Key) (e : CacheObject) (m : JsMap) : JsMap :=
  match m with
  | [] => [(k, e)]
  | (k', e') :: rest =>
      if same_value_zero k' k then (k', e) :: rest
      else (k', e') :: map_set k e rest
  end.

Fixpoint map_delete (k : Key) (m : JsMap) : JsMap :=
  match m with
  | [] => []
  | (k', e') :: rest =>
      if same_value_zero k' k then map_delete k rest
      else (k', e') :: map_delete k rest
  end.

Definition map_size (m : JsMap) : nat := length m.

(** [Array.from(map)]: the entries in insertion order. *)
Definition Array_from (m : JsMap) : list (Key * CacheObject) := m.

(** ** Promises *)

(** What a promise is rejected with.  The [Error]s carry the [name] the
    source gives them; [pop] rejects with a plain string. *)
Inductive Rejection : Type :=
| EmptyKey
| EmptyValue
| AddFailed (k : Key)
| GetFailed (k : Key)
| PopErrorString (k : Key)
| MissingArguments
| TypeError.

Definition error_name (r : Rejection) : option string :=
  match r with
  | EmptyKey => Some "Empty key"
  | EmptyValue => Some "Empty value"
  | AddFailed _ => Some "add failed"
  | GetFailed _ => Some "get failed"
  | PopErrorString _ => None
  | MissingArguments => Some "Error"
  | TypeError => Some "TypeError"
  end.

Inductive Settled (A : Type) : Type :=
| Resolved (a : A)
| Rejected (r : Rejection)
| Pending.

Arguments Resolved {A} a.
Arguments Rejected {A} r.
Arguments Pending {A}.

(** A promise settles once: [resolve] and [reject] after the first one, and
    an exception thrown by the executor after it, change nothing. *)
Definition settle {A : Type} (first : option (Settled A)) (later : Settled A)
  : Settled A :=
  match first with
  | Some s => s
  | None => later
  end.

Definition is_rejected {A : Type} (s : Settled A) : bool :=
  match s with
  | Rejected _ => true
  | _ => false
  end.

(** ** The cache *)

Record Cache : Type := mkCache {
  options : CacheOptions;
  map : JsMap
}.

(** [this.options.lifetime?.duration] *)
Definition lifetime_duration (o : CacheOptions) : option Z :=
  match lifetime o with
  | Some l => duration l
  | None => None
  end.

(** [new Cache(options)].  The timer the constructor starts when
    [lifetime.duration] is truthy is the caller of [prune] below. *)
Definition new_Cache (o : CacheOptions) : Cache := mkCache o [].

(** [obj.timestamp < expired] with [expired = Date.now() - duration], the
    test [prune_loop] below makes with [expired] worked out once. *)
Definition is_expired (d : Z) (t : Z) (e : CacheObject) : bool :=
  timestamp e <? t - d.

(** The loop of [prune].  [entries] is what is left of the array taken
    before the loop, from index [i] on; the bound [i < this.map.size] is
    read from the map as it is at each turn. *)
Fixpoint prune_loop (expired : Z) (entries : list (Key * CacheObject))
  (i : nat) (m : JsMap) : JsMap :=
  match entries with
  | [] => m
  | (k, obj) :: rest =>
      if (i <? map_size m)%nat then
        prune_loop expired rest (S i)
          (if timestamp obj <? expired then map_delete k m else m)
      else m
  end.

Definition prune (w : World) (c : Cache) : Cache :=
  if negb (truthy_number (lifetime_duration (options c))) then c
  else
    let entries := Array_from (map c) in
    let expired :=
      now w - (match lifetime_duration (options c) with
               | Some d => if Z.eqb d 0 then 1000 else d
               | None => 1000
               end) in
    mkCache (options c) (prune_loop expired entries 0 (map c)).

(** [entry?.value || undefined] *)
Definition value_or_undefined (entry : option CacheObject) : JsValue :=
  match entry with
  | Some e => if truthy (value e) then value e else JsUndefined
  | None => JsUndefined
  end.

(** [this.options.throwOnEmpty || throwOnEmpty] *)
Definition get_throwOnEmpty (c : Cache) (throwOnEmpty_arg : option bool) : bool :=
  truthy_flag (throwOnEmpty (options c)) || truthy_flag throwOnEmpty_arg.

Definition get (c : Cache) (k : Key) (throwOnEmpty_arg : option bool)
  : Settled JsValue :=
  if get_throwOnEmpty c throwOnEmpty_arg && negb (map_has k (map c)) then
    match toString k with
    | Some _ => Rejected (GetFailed k)
    | None => Rejected TypeError
    end
  else Resolved (value_or_undefined (map_get k (map c))).

(** [key === undefined || key === null || key.toString().length === 0] *)
Definition empty_key (k : Key) : bool :=
  match toString k with
  | None => true
  | Some s => Nat.eqb (String.length s) 0
  end.

(** [addOptions.addObjectAs || this.options.addObjectsAs || 'byReference'] *)
Definition resolve_addAs (c : Cache) (o : AddOptions) : AddObjectAs :=
  match addObjectAs o with
  | Some a => a
  | None =>
      match addObjectsAs (options c) with
      | Some a => a
      | None => byReference
      end
  end.

(** [addOptions.throwOnExist || this.options.duplicateAddThrows] *)
Definition resolve_throwIfKeyExists (c : Cache) (o : AddOptions) : bool :=
  truthy_flag (throwOnExist o) || truthy_flag (duplicateAddThrows (options c)).

(** [this.options.limit === this.map.size] *)
Definition limit_reached (c : Cache) (m : JsMap) : bool :=
  match limit (options c) with
  | Some n => Z.eqb n (Z.of_nat (map_size m))
  | None => false
  end.

(** The value kept in the entry. *)
Definition stored_value (w : World) (addAs : AddObjectAs) (v : Value) : Value :=
  if typeof_object v then
    match addAs with
    | clone => cloneDeep w v
    | stringify => JSON_stringify v
    | byReference => v
    end
  else v.

(** [add].  The two validation branches reject and return.  The duplicate
    branch rejects and goes on: [rejected] remembers that the promise is
    settled, and the eviction and the [set] that follow still run. *)
Definition add (w : World) (c : Cache) (k : Key) (v : Value) (o : AddOptions)
  : Settled unit * Cache :=
  let addAs := resolve_addAs c o in
  let throwIfKeyExists := resolve_throwIfKeyExists c o in
  if empty_key k then (Rejected EmptyKey, c)
  else if nullish v || empty_key k then (Rejected EmptyValue, c)
  else
    let rejected :=
      if throwIfKeyExists && map_has k (map c)
      then Some (Rejected (AddFailed k)) else None in
    if limit_reached c (map c) then
      match Array_from (map c) with
      | [] => (settle rejected (Rejected TypeError), c)
      | (oldest, _) :: _ =>
          let m1 := map_delete oldest (map c) in
          let cacheObject := mkCacheObject k (stored_value w addAs v) (now w) in
          (settle rejected (Resolved tt),
           mkCache (options c) (map_set k cacheObject m1))
      end
    else
      let cacheObject := mkCacheObject k (stored_value w addAs v) (now w) in
      (settle rejected (Resolved tt),
       mkCache (options c) (map_set k cacheObject (map c))).

Definition clear (c : Cache) : Settled unit * Cache :=
  (Resolved tt, mkCache (options c) []).

(** [pop].  The entry is deleted in the [then] of the inner [get]; the
    function is the call awaited to its end.  When the inner [get] rejects
    nothing settles the outer promise. *)
Definition pop (c : Cache) (k : Key) (throwOnEmpty_arg : option bool)
  : Settled JsValue * Cache :=
  if negb (map_has k (map c)) then
    if truthy_flag throwOnEmpty_arg || truthy_flag (throwOnEmpty (options c))
    then (Rejected (PopErrorString k), c)
    else (Resolved JsUndefined, c)
  else
    match get c k throwOnEmpty_arg with
    | Resolved v => (Resolved v, mkCache (options c) (map_delete k (map c)))
    | _ => (Pending, c)
    end.

Definition has (c : Cache) (k : Key) : bool := map_has k (map c).

(** ** The memoizer *)

(** The function returned by [memoizer(fn)], with the cache of its closure
    passed in and out.  [fn] may read the clock.  The boolean tells whether
    [fn] was called. *)
Definition memoized (fn : World -> JsValue -> JsValue) (w : World)
  (cache : Cache) (args : JsValue) : Settled JsValue * Cache * bool :=
  if negb (truthy args) then (Rejected MissingArguments, cache, false)
  else
    let k := JSON_stringify args in
    if has cache k then (get cache k None, cache, false)
    else
      let result := fn w args in
      match add w cache k result no_addOptions with
      | (Resolved _, cache') => (Resolved result, cache', true)
      | (Rejected r, cache') => (Rejected r, cache', true)
      | (Pending, cache') => (Pending, cache', true)
      end.

(** [const cache = new Cache()] *)
Definition memoizer_cache : Cache := new_Cache no_options.

(** [add] faults only when the limit is the size of an empty store: the
    first entry of [Array.from(this.map)] is then [undefined]. *)
Definition add_faults (c : Cache) : bool :=
  limit_reached c (map c) && Nat.eqb (map_size (map c)) 0.

(** No key twice, which a [Map] has by construction. *)
Fixpoint unique_keys (m : JsMap) : bool :=
  match m with
  | [] => true
  | (k, _) :: rest => negb (map_has k rest) && unique_keys rest
  end.

(** The entry [add] builds for a call with the default [addOptions]. *)
Definition entry_for (c : Cache) (x : World * Key * Value)
  : Key * CacheObject :=
  let '(w, k, v) := x in
  (k, mkCacheObject k (stored_value w (resolve_addAs c no_addOptions) v) (now w)).

(** One [add] after the other, each awaited. *)
Definition add_all (c : Cache) (xs : list (World * Key * Value)) : Cache :=
  fold_left
    (fun c x => let '(w, k, v) := x in snd (add w c k v no_addOptions)) xs c.

Definition valid_call (x : World * Key * Value) : bool :=
  let '(_, k, v) := x in negb (empty_key k) && negb (nullish v).

(** ** Calls in sequence *)

(** One call on the cache, or one firing of the timer that runs [prune]. *)
Inductive Call : Type :=
| CallAdd (w : World) (k : Key) (v : Value) (o : AddOptions)
| CallGet (k : Key) (throwOnEmpty_arg : option bool)
| CallPop (k : Key) (throwOnEmpty_arg : option bool)
| CallHas (k : Key)
| CallClear
| Tick (w : World).

Definition step (c : Cache) (call : Call) : Cache :=
  match call with
  | CallAdd w k v o => snd (add w c k v o)
  | CallGet _ _ => c
  | CallPop k t => snd (pop c k t)
  | CallHas _ => c
  | CallClear => snd (clear c)
  | Tick w => prune w c
  end.

Definition run (c : Cache) (calls : list Call) : Cache :=
  fold_left step calls c.

(** A key and a value that pass the two checks of [add]. *)
Definition valid_key (k : Key) : bool := negb (empty_key k).
Definition valid_value (v : Value) : bool := negb (nullish v).

(** ** Scenarios *)

Definition world_at (t : Z) : World := mkWorld t 0.

Definition key_k : Key := JsString "k".
Definition key_a : Key := JsString "a".
Definition key_b : Key := JsString "b".
Definition key_c : Key := JsString "c".

(** [new Cache({ throwOnEmpty: true })] *)
Definition options_throwOnEmpty : CacheOptions :=
  mkCacheOptions None None (Some true) None None.

(** [new Cache({ limit: n })] *)
Definition options_limit (n : Z) : CacheOptions :=
  mkCacheOptions (Some n) None None None None.

(** [new Cache({ duplicateAddThrows: true })] *)
Definition options_duplicateAddThrows : CacheOptions :=
  mkCacheOptions None (Some true) None None None.

(** [new Cache({ lifetime: { duration: d } })] *)
Definition options_duration (d : Z) : CacheOptions :=
  mkCacheOptions None None None None (Some (mkLifetime (Some d) None)).

(** A cache with [lifetime.duration = 500] and one entry added at time 0. *)
Definition cache_added_at_0 (k : Key) (v : Value) : Cache :=
  snd (add (world_at 0) (new_Cache (options_duration 500)) k v no_addOptions).

(** [add(k, v1)] on a new cache with [duplicateAddThrows: true]. *)
Definition cache_with_v1 : Cache :=
  snd (add (world_at 0) (new_Cache options_duplicateAddThrows)
         key_k (JsString "v1") no_addOptions).

(** [new Cache({ limit: 2, duplicateAddThrows: true })] *)
Definition options_limit_2_duplicateAddThrows : CacheOptions :=
  mkCacheOptions (Some 2) (Some true) None None None.

(** [add(a, 1)], then [add(b, 2)]. *)
Definition add_a_then_b (o : CacheOptions) : Cache :=
  run (new_Cache o)
    [CallAdd (world_at 0) key_a (JsNumber 1) no_addOptions;
     CallAdd (world_at 0) key_b (JsNumber 2) no_addOptions].

(** A function of its argument alone, and one that reads the clock. *)
Definition minus_five (w : World) (x : JsValue) : JsValue :=
  match x with
  | JsNumber n => JsNumber (n - 5)
  | _ => JsUndefined
  end.

Definition clock_plus (w : World) (x : JsValue) : JsValue :=
  match x with
  | JsNumber n => JsNumber (now w + n)
  | _ => JsUndefined
  end.

(** [add(a, 1)], [add(b, 2)], [add(c, 3)] at times 0, 1, 2. *)
Definition three_adds : list (World * Key * Value) :=
  [(world_at 0, key_a, JsNumber 1);
   (world_at 1, key_b, JsNumber 2);
   (world_at 2, key_c, JsNumber 3)].

(** An object [{ foo: 'bar' }] at reference 7. *)
Definition object_foo : JsObject :=
  mkObject 7 "[object Object]" "{foo:bar}".

(** [add(k, v1)] on a new cache with no options. *)
Definition cache_plain_v1 : Cache :=
  snd (add (world_at 0) (new_Cache no_options) key_k (JsString "v1")
         no_addOptions).

(** ** The earlier class *)

(** The file holds an earlier [Cache] class as well (the first class in it).
    Its constructor, [prune], [get], [clear] and [has] read as the ones
    above; [add] and [pop] differ and are given here.  The earlier class
    names the third storage mode ['raw']; it is [byReference] here. *)

(** [this.options.duplicateAddThrows] *)
Definition constructor_duplicateAddThrows (c : Cache) : option bool :=
  duplicateAddThrows (options c).

(** A property of the object a caller hands over: not there, there with the
    value [undefined], or there with a value.  An object spread copies the
    last two alike. *)
Inductive Property (A : Type) : Type :=
| Missing
| Undefined
| Given (a : A).

Arguments Missing {A}.
Arguments Undefined {A}.
Arguments Given {A} a.

Module Legacy.

(** The earlier [AddOptions]. *)
Record AddOptions : Type := mkAddOptions {
  addObjectAs : Property AddObjectAs;
  lifetime : Property Z;
  duplicateAddThrows : Property bool
}.

(** No [addOptions], or an empty object. *)
Definition no_addOptions : AddOptions := mkAddOptions Missing Missing Missing.

(** The [options] object of [add]: the defaults from the constructor's
    options, then the properties of [addOptions] spread over them; a
    property that is there replaces the default, [undefined] included. *)
Definition merged_addObjectAs (c : Cache) (o : AddOptions)
  : option AddObjectAs :=
  match addObjectAs o with
  | Given a => Some a
  | Undefined => None
  | Missing =>
      match addObjectsAs (options c) with
      | Some a => Some a
      | None => Some byReference
      end
  end.

Definition merged_lifetime (c : Cache) (o : AddOptions) : option Z :=
  match lifetime o with
  | Given l => Some l
  | Undefined => None
  | Missing => lifetime_duration (options c)
  end.

Definition merged_duplicateAddThrows (c : Cache) (o : AddOptions)
  : option bool :=
  match duplicateAddThrows o with
  | Given b => Some b
  | Undefined => None
  | Missing => constructor_duplicateAddThrows c
  end.

(** The value kept in the entry: ['clone'], ['stringify'], and the value
    itself for anything else. *)
Definition stored_value (w : World) (mode : option AddObjectAs) (v : Value)
  : Value :=
  if typeof_object v then
    match mode with
    | Some clone => cloneDeep w v
    | Some stringify => JSON_stringify v
    | _ => v
    end
  else v.

Definition add (w : World) (c : Cache) (k : Key) (v : Value) (o : AddOptions)
  : Settled unit * Cache :=
  let mode := merged_addObjectAs c o in
  let throws := truthy_flag (merged_duplicateAddThrows c o) in
  if empty_key k then (Rejected EmptyKey, c)
  else if nullish v || empty_key k then (Rejected EmptyValue, c)
  else
    let rejected :=
      if throws && map_has k (map c)
      then Some (Rejected (AddFailed k)) else None in
    if limit_reached c (map c) then
      match Array_from (map c) with
      | [] => (settle rejected (Rejected TypeError), c)
      | (oldest, _) :: _ =>
          let m1 := map_delete oldest (map c) in
          let cacheObject := mkCacheObject k (stored_value w mode v) (now w) in
          (settle rejected (Resolved tt),
           mkCache (options c) (map_set k cacheObject m1))
      end
    else
      let cacheObject := mkCacheObject k (stored_value w mode v) (now w) in
      (settle rejected (Resolved tt),
       mkCache (options c) (map_set k cacheObject (map c))).

(** The earlier [pop]: an absent key resolves with [undefined] whatever the
    flags; otherwise the promise of [get] is taken, the entry deleted, and
    the outer promise resolved with that promise, whose state it takes. *)
Definition pop (c : Cache) (k : Key) (throwOnEmpty_arg : option bool)
  : Settled JsValue * Cache :=
  if negb (map_has k (map c)) then (Resolved JsUndefined, c)
  else (get c k throwOnEmpty_arg, mkCache (options c) (map_delete k (map c))).

End Legacy.

(** What [p || ...] sees of a property. *)
Definition property_value {A : Type} (p : Property A) : option A :=
  match p with
  | Given a => Some a
  | _ => None
  end.

(** The [addOptions] of the later [add] that say what earlier ones say. *)
Definition later_addOptions (o : Legacy.AddOptions) : AddOptions :=
  mkAddOptions (property_value (Legacy.addObjectAs o))
    (property_value (Legacy.duplicateAddThrows o)).

(** ** More calls in sequence *)

(** The key [add] evicts when the store is at its limit. *)
Definition oldest_key (m : JsMap) : option Key :=
  match Array_from m with
  | [] => None
  | (k, _) :: _ => Some k
  end.

(** Some entry of the store is older than the duration allows. *)
Definition any_expired (d t : Z) (m : JsMap) : bool :=
  existsb (fun x => is_expired d t (snd x)) m.

(** [n] firings of the timer at one reading of the clock. *)
Definition ticks (w : World) (n : nat) (c : Cache) : Cache :=
  Nat.iter n (prune w) c.

(** Calls of one memoized function, each awaited, on the cache of its
    closure. *)
Definition memoized_all (fn : World -> JsValue -> JsValue) (cache : Cache)
  (calls : list (World * JsValue)) : Cache :=
  fold_left (fun c x => snd (fst (memoized fn (fst x) c (snd x)))) calls cache.

(** A function that yields nothing. *)
Definition yields_undefined (w : World) (x : JsValue) : JsValue := JsUndefined.

(** * Properties *)

(** ** SameValueZero and the map *)

Lemma same_value_zero_refl (a : JsValue) : same_value_zero a a = true.
Proof.
  destruct a; simpl; trivial.
  - apply String.eqb_refl.
  - apply Z.eqb_refl.
  - apply Nat.eqb_refl.
Qed.

Lemma same_value_zero_sym (a b : JsValue) :
  same_value_zero a b = same_value_zero b a.
Proof.
  destruct a, b; simpl; trivial.
  - apply String.eqb_sym.
  - apply Z.eqb_sym.
  - apply Nat.eqb_sym.
Qed.

Lemma same_value_zero_trans (a b c : JsValue) :
  same_value_zero a b = true -> same_value_zero b c = true ->
  same_value_zero a c = true.
Proof.
  destruct a, b, c; simpl; try discriminate; trivial.
  - intros H1 H2. apply String.eqb_eq in H1, H2. subst. apply String.eqb_refl.
  - intros H1 H2. apply Z.eqb_eq in H1, H2. subst. apply Z.eqb_refl.
  - intros H1 H2. apply Nat.eqb_eq in H1, H2. rewrite H1, H2. apply Nat.eqb_refl.
Qed.

(** Keys that are the same to the map are looked up alike. *)
Lemma same_value_zero_cong (a b c : JsValue) :
  same_value_zero a b = true -> same_value_zero c a = same_value_zero c b.
Proof.
  intros Hab.
  destruct (same_value_zero c a) eqn:Hca.
  - symmetry. eapply same_value_zero_trans; eauto.
  - destruct (same_value_zero c b) eqn:Hcb; trivial.
    rewrite same_value_zero_sym in Hab.
    rewrite (same_value_zero_trans c b a Hcb Hab) in Hca. discriminate.
Qed.

Lemma map_has_get (k : Key) (m : JsMap) :
  map_has k m = true <-> exists e, map_get k m = Some e.
Proof.
  unfold map_has. destruct (map_get k m) as [e|].
  - split; eauto.
  - split; [discriminate | intros [e He]; discriminate].
Qed.

Lemma map_get_delete_same (k : Key) (m : JsMap) :
  map_get k (map_delete k m) = None.
Proof.
  induction m as [|[k' e'] rest IH]; simpl; trivial.
  destruct (same_value_zero k' k) eqn:E; simpl; trivial.
  rewrite E. exact IH.
Qed.

Lemma map_has_delete_same (k : Key) (m : JsMap) :
  map_has k (map_delete k m) = false.
Proof. unfold map_has. now rewrite map_get_delete_same. Qed.

Lemma map_get_delete_other (k k' : Key) (m : JsMap) :
  same_value_zero k k' = false ->
  map_get k' (map_delete k m) = map_get k' m.
Proof.
  intros Hne.
  induction m as [|[k0 e0] rest IH]; simpl; trivial.
  destruct (same_value_zero k0 k) eqn:E0.
  - rewrite IH.
    destruct (same_value_zero k0 k') eqn:E1; trivial.
    rewrite same_value_zero_sym in E0.
    rewrite (same_value_zero_trans k k0 k' E0 E1) in Hne. discriminate.
  - simpl. now rewrite IH.
Qed.

Lemma map_get_set_same (k : Key) (e : CacheObject) (m : JsMap) :
  map_get k (map_set k e m) = Some e.
Proof.
  induction m as [|[k0 e0] rest IH]; simpl.
  - now rewrite same_value_zero_refl.
  - destruct (same_value_zero k0 k) eqn:E0; simpl; now rewrite E0.
Qed.

Lemma map_get_set_other (k k' : Key) (e : CacheObject) (m : JsMap) :
  same_value_zero k k' = false ->
  map_get k' (map_set k e m) = map_get k' m.
Proof.
  intros Hne.
  induction m as [|[k0 e0] rest IH]; simpl.
  - now rewrite Hne.
  - destruct (same_value_zero k0 k) eqn:E0; simpl.
    + destruct (same_value_zero k0 k') eqn:E1; trivial.
      rewrite same_value_zero_sym in E0.
      rewrite (same_value_zero_trans k k0 k' E0 E1) in Hne. discriminate.
    + now rewrite IH.
Qed.

Lemma map_has_set_same (k : Key) (e : CacheObject) (m : JsMap) :
  map_has k (map_set k e m) = true.
Proof. unfold map_has. now rewrite map_get_set_same. Qed.

(** ** Keys *)

Lemma number_toString_not_empty (n : Z) :
  Nat.eqb (String.length (number_toString n)) 0 = false.
Proof.
  unfold number_toString.
  destruct n as [|p|p]; simpl; trivial.
  pose proof (Unsigned.to_uint_nonnil p) as Hp.
  unfold NilZero.string_of_uint.
  destruct (Pos.to_uint p); simpl; trivial; congruence.
Qed.

(** The key check of [add] in words: [undefined], [null], or a string
    representation of length zero. *)
Lemma empty_key_spec (k : Key) :
  empty_key k = true <->
  nullish k = true \/ exists s, toString k = Some s /\ String.length s = 0%nat.
Proof.
  unfold empty_key. destruct k as [| |s|n|o]; simpl.
  - split; auto.
  - split; auto.
  - rewrite Nat.eqb_eq. split.
    + intros H. right. eauto.
    + intros [H|[s' [H1 H2]]]; [discriminate|]. now inversion H1; subst.
  - rewrite number_toString_not_empty. split; [discriminate|].
    intros [H|[s' [H1 H2]]]; [discriminate|].
    inversion H1; subst.
    pose proof (number_toString_not_empty n) as Hn.
    rewrite H2 in Hn. discriminate.
  - rewrite Nat.eqb_eq. split.
    + intros H. right. eauto.
    + intros [H|[s' [H1 H2]]]; [discriminate|]. now inversion H1; subst.
Qed.

(** ** [add]: validation *)

Lemma settle_not_validation (first : option (Settled unit)) (k : Key)
  (later : Settled unit) :
  (first = None \/ first = Some (Rejected (AddFailed k))) ->
  (later = Resolved tt \/ later = Rejected TypeError) ->
  settle first later <> Rejected EmptyKey /\
  settle first later <> Rejected EmptyValue.
Proof.
  intros [->| ->] [->| ->]; simpl; split; discriminate.
Qed.

(** Past the two checks, [add] settles with neither validation error. *)
Lemma add_valid_not_validation (w : World) (c : Cache) (k : Key) (v : Value)
  (o : AddOptions) :
  empty_key k = false -> nullish v = false ->
  fst (add w c k v o) <> Rejected EmptyKey /\
  fst (add w c k v o) <> Rejected EmptyValue.
Proof.
  intros Hk Hv. unfold add. rewrite Hk, Hv. simpl.
  set (first := if resolve_throwIfKeyExists c o && map_has k (map c)
                then Some (Rejected (AddFailed k)) else None).
  assert (Hf : first = None \/ first = Some (Rejected (AddFailed k))).
  { unfold first.
    destruct (resolve_throwIfKeyExists c o && map_has k (map c)); auto. }
  destruct (limit_reached c (map c)).
  - unfold Array_from. destruct (map c) as [|[oldest e] rest]; simpl;
      apply (settle_not_validation first k); auto.
  - simpl. apply (settle_not_validation first k); auto.
Qed.

(** C8: [add] rejects with the error named [Empty key] exactly when the key
    is [undefined] or [null] or its string representation has length zero;
    it rejects with the error named [Empty value] exactly when the key
    passes that check and the value is [undefined] or [null], so a call with
    both empty is rejected for its key; after either rejection the cache is
    what it was. *)
Theorem add_rejects_empty_key_then_empty_value
  (w : World) (c : Cache) (k : Key) (v : Value) (o : AddOptions) :
  (fst (add w c k v o) = Rejected EmptyKey <->
     (nullish k = true \/
      exists s, toString k = Some s /\ String.length s = 0%nat))
  /\ (fst (add w c k v o) = Rejected EmptyValue <->
        (empty_key k = false /\ nullish v = true))
  /\ ((fst (add w c k v o) = Rejected EmptyKey \/
       fst (add w c k v o) = Rejected EmptyValue) ->
      snd (add w c k v o) = c).
Proof.
  rewrite <- empty_key_spec.
  destruct (empty_key k) eqn:Hk.
  - unfold add. rewrite Hk. simpl.
    repeat split; trivial; try discriminate.
    intros [H _]. discriminate.
  - destruct (nullish v) eqn:Hv.
    + unfold add. rewrite Hk, Hv. simpl.
      repeat split; trivial; discriminate.
    + destruct (add_valid_not_validation w c k v o Hk Hv) as [H1 H2].
      split; [|split].
      * split; [intros H; contradiction | discriminate].
      * split; [intros H; contradiction | intros [_ H]; discriminate].
      * intros [H|H]; contradiction.
Qed.

(** ** A limit of zero *)

Lemma step_options (c : Cache) (call : Call) :
  options (step c call) = options c.
Proof.
  destruct call as [w k v o|k t|k t|k| |w]; simpl; trivial.
  - unfold add.
    destruct (empty_key k); simpl; trivial.
    destruct (nullish v); simpl; trivial.
    destruct (limit_reached c (map c)); simpl; trivial.
    unfold Array_from. destruct (map c) as [|[oldest e] rest]; trivial.
  - unfold pop.
    destruct (negb (map_has k (map c))).
    + destruct (truthy_flag t || truthy_flag (throwOnEmpty (options c))); trivial.
    + destruct (get c k t); trivial.
  - unfold prune.
    destruct (negb (truthy_number (lifetime_duration (options c)))); trivial.
Qed.






(** ** [get], [pop], [has]: absent and present keys *)

Lemma get_absent (c : Cache) (k : Key) (t : option bool) :
  has c k = false ->
  get c k t =
  if get_throwOnEmpty c t
  then Rejected (match toString k with Some _ => GetFailed k | None => TypeError end)
  else Resolved JsUndefined.
Proof.
  unfold has, get, map_has. intros H.
  destruct (map_get k (map c)); [discriminate|].
  destruct (get_throwOnEmpty c t); simpl; trivial.
  destruct (toString k); trivial.
Qed.

Lemma pop_absent (c : Cache) (k : Key) (t : option bool) :
  has c k = false ->
  pop c k t =
  if get_throwOnEmpty c t
  then (Rejected (PopErrorString k), c)
  else (Resolved JsUndefined, c).
Proof.
  unfold has, pop, get_throwOnEmpty. intros H. rewrite H. simpl.
  now rewrite orb_comm.
Qed.

(** A stored entry is served whatever the flags and whatever its
    timestamp. *)
Lemma get_present (c : Cache) (k : Key) (e : CacheObject) (t : option bool) :
  map_get k (map c) = Some e ->
  get c k t = Resolved (value_or_undefined (Some e)).
Proof.
  unfold get, map_has. intros H. rewrite H.
  now rewrite andb_false_r.
Qed.

Lemma pop_present (c : Cache) (k : Key) (e : CacheObject) (t : option bool) :
  map_get k (map c) = Some e ->
  pop c k t =
  (Resolved (value_or_undefined (Some e)),
   mkCache (options c) (map_delete k (map c))).
Proof.
  intros H. unfold pop.
  rewrite (get_present c k e t H).
  unfold map_has. now rewrite H.
Qed.


(** [pop] always settles. *)
Lemma pop_settles (c : Cache) (k : Key) (t : option bool) :
  fst (pop c k t) <> Pending.
Proof.
  destruct (map_get k (map c)) as [e|] eqn:E.
  - rewrite (pop_present c k e t E). discriminate.
  - assert (H : has c k = false) by (unfold has, map_has; now rewrite E).
    rewrite (pop_absent c k t H).
    destruct (get_throwOnEmpty c t); discriminate.
Qed.

(** Where the argument is [true], where it is not given, and where it is
    [false] on a cache not constructed with [throwOnEmpty: true], the call
    on an absent key follows the argument if there is one and the
    constructor's flag otherwise. *)
Lemma throw_policy_argument_or_constructor
  (c : Cache) (k : Key) (t : option bool) :
  has c k = false ->
  (t = Some true ->
   is_rejected (get c k t) = true
   /\ fst (pop c k t) = Rejected (PopErrorString k))
  /\ (t = None ->
      is_rejected (get c k t) = truthy_flag (throwOnEmpty (options c))
      /\ is_rejected (fst (pop c k t))
         = truthy_flag (throwOnEmpty (options c)))
  /\ (t = Some false -> throwOnEmpty (options c) <> Some true ->
      get c k t = Resolved JsUndefined
      /\ fst (pop c k t) = Resolved JsUndefined).
Proof.
  intros H. rewrite (get_absent c k t H), (pop_absent c k t H).
  unfold get_throwOnEmpty.
  split; [|split].
  - intros ->. simpl. rewrite orb_true_r. simpl. split; trivial.
  - intros ->. simpl. rewrite orb_false_r.
    destruct (truthy_flag (throwOnEmpty (options c))); simpl; split; trivial.
  - intros -> Hc. simpl. rewrite orb_false_r.
    destruct (throwOnEmpty (options c)) as [[|]|]; simpl; auto; congruence.
Qed.

(** C6: on a cache constructed with [throwOnEmpty: true], [get] with the
    argument [false] on an absent key rejects with the error named
    [get failed], and [pop] with the argument [false] rejects too: the
    argument, which is to override the constructor's flag, is lost when it
    is [false]. *)
Lemma get_per_call_false_still_rejects :
  throwOnEmpty (options (new_Cache options_throwOnEmpty)) = Some true
  /\ has (new_Cache options_throwOnEmpty) key_k = false
  /\ get (new_Cache options_throwOnEmpty) key_k (Some false)
     = Rejected (GetFailed key_k)
  /\ is_rejected (fst (pop (new_Cache options_throwOnEmpty) key_k (Some false)))
     = true.
Proof. repeat split. Qed.

(** ** Expiry and the reads *)

(** The test of [prune] is the age of the entry against the duration. *)
Lemma is_expired_age (d t : Z) (e : CacheObject) :
  is_expired d t e = true <-> t - timestamp e > d.
Proof. unfold is_expired. rewrite Z.ltb_lt. lia. Qed.

Lemma cache_added_at_0_map (k : Key) (v : Value) :
  valid_key k = true -> valid_value v = true ->
  cache_added_at_0 k v =
  mkCache (options_duration 500) [(k, mkCacheObject k v 0)].
Proof.
  unfold valid_key, valid_value, cache_added_at_0, add.
  intros Hk Hv.
  apply negb_true_iff in Hk. apply negb_true_iff in Hv.
  rewrite Hk, Hv. simpl.
  unfold stored_value, resolve_addAs. simpl.
  destruct (typeof_object v); reflexivity.
Qed.



(** C1, as the code has it: [get], [pop] and [has] answer from the store
    alone, so an entry is served whatever its age for as long as it is in
    the store.  An entry added at time 0 to a new cache with a duration of
    500 is retrievable at any later time while no prune has removed it; a
    prune at a time up to 500 keeps it, and after a prune at a time past
    500 it is absent. *)
Theorem expired_entry_served_until_pruned :
  (forall (c : Cache) (k : Key) (e : CacheObject) (t : option bool),
      map_get k (map c) = Some e -> truthy (value e) = true ->
      has c k = true
      /\ get c k t = Resolved (value e)
      /\ fst (pop c k t) = Resolved (value e))
  /\ (forall (k : Key) (v : Value) (t : option bool),
      valid_key k = true -> valid_value v = true -> truthy v = true ->
      has (cache_added_at_0 k v) k = true
      /\ get (cache_added_at_0 k v) k t = Resolved v
      /\ (forall w, now w <= 500 ->
          prune w (cache_added_at_0 k v) = cache_added_at_0 k v)
      /\ (forall w, now w > 500 ->
          has (prune w (cache_added_at_0 k v)) k = false
          /\ get (prune w (cache_added_at_0 k v)) k None
             = Resolved JsUndefined)).
Proof.
  split.
  - intros c k e t He Hv. split; [|split].
    + unfold has, map_has. now rewrite He.
    + rewrite (get_present c k e t He). simpl. now rewrite Hv.
    + rewrite (pop_present c k e t He). simpl. now rewrite Hv.
  - intros k v t Hk Hv Ht.
    rewrite (cache_added_at_0_map k v Hk Hv).
    assert (Hget : map_get k [(k, mkCacheObject k v 0)]
                   = Some (mkCacheObject k v 0)).
    { simpl. now rewrite same_value_zero_refl. }
    split; [|split; [|split]].
    + unfold has, map_has. simpl map. now rewrite Hget.
    + rewrite (get_present
                 (mkCache (options_duration 500) [(k, mkCacheObject k v 0)])
                 k _ t Hget).
      simpl. now rewrite Ht.
    + intros w Hw. unfold prune. simpl.
      destruct (0 <? now w - 500) eqn:E; trivial.
      apply Z.ltb_lt in E. lia.
    + intros w Hw. unfold prune. simpl.
      assert (E : (0 <? now w - 500) = true) by (apply Z.ltb_lt; lia).
      rewrite E. rewrite same_value_zero_refl. split; reflexivity.
Qed.

(** C1, as the claim has it, fails: the entry added at time 0 with a
    duration of 500 is past its lifetime at time 600, and without a prune
    [has], [get] and [pop] still serve it. *)
Lemma reads_serve_expired_entry :
  lifetime_duration (options (cache_added_at_0 key_k (JsString "v")))
  = Some 500
  /\ map_get key_k (map (cache_added_at_0 key_k (JsString "v")))
     = Some (mkCacheObject key_k (JsString "v") 0)
  /\ is_expired 500 600 (mkCacheObject key_k (JsString "v") 0) = true
  /\ has (cache_added_at_0 key_k (JsString "v")) key_k = true
  /\ get (cache_added_at_0 key_k (JsString "v")) key_k None
     = Resolved (JsString "v")
  /\ get (cache_added_at_0 key_k (JsString "v")) key_k (Some true)
     = Resolved (JsString "v")
  /\ fst (pop (cache_added_at_0 key_k (JsString "v")) key_k None)
     = Resolved (JsString "v").
Proof. repeat split. Qed.

(** ** [add]: what is stored *)

Lemma add_stores (w : World) (c : Cache) (k : Key) (v : Value)
  (o : AddOptions) :
  valid_key k = true -> valid_value v = true -> add_faults c = false ->
  map_get k (map (snd (add w c k v o)))
  = Some (mkCacheObject k (stored_value w (resolve_addAs c o) v) (now w)).
Proof.
  unfold valid_key, valid_value, add_faults. intros Hk Hv Hf.
  apply negb_true_iff in Hk. apply negb_true_iff in Hv.
  unfold add. rewrite Hk, Hv. simpl.
  destruct (limit_reached c (map c)); simpl in *.
  - unfold Array_from. destruct (map c) as [|[oldest e] rest] eqn:Em.
    + discriminate.
    + simpl snd. simpl map. apply map_get_set_same.
  - apply map_get_set_same.
Qed.

Lemma add_settles (w : World) (c : Cache) (k : Key) (v : Value)
  (o : AddOptions) :
  valid_key k = true -> valid_value v = true -> add_faults c = false ->
  fst (add w c k v o)
  = if resolve_throwIfKeyExists c o && has c k
    then Rejected (AddFailed k) else Resolved tt.
Proof.
  unfold valid_key, valid_value, add_faults, has. intros Hk Hv Hf.
  apply negb_true_iff in Hk. apply negb_true_iff in Hv.
  unfold add. rewrite Hk, Hv. simpl.
  destruct (limit_reached c (map c)); simpl in *.
  - unfold Array_from. destruct (map c) as [|[oldest e] rest] eqn:Em.
    + discriminate.
    + simpl fst.
      destruct (resolve_throwIfKeyExists c o
                && map_has k ((oldest, e) :: rest)); reflexivity.
  - destruct (resolve_throwIfKeyExists c o && map_has k (map c)); reflexivity.
Qed.

(** A store that holds a key is not empty, so [add] on it cannot fault. *)
Lemma has_no_fault (c : Cache) (k : Key) :
  has c k = true -> add_faults c = false.
Proof.
  unfold has, map_has, add_faults, map_size.
  destruct (map c); simpl; [discriminate|]. intros _. apply andb_false_r.
Qed.

(** The part of C2 the code keeps: with the duplicate policy on, [add] on a
    key that is in the store rejects with the error named [add failed];
    it stores the new entry all the same. *)
Lemma add_duplicate_rejects_and_stores (w : World) (c : Cache) (k : Key)
  (v : Value) (o : AddOptions) :
  valid_key k = true -> valid_value v = true ->
  resolve_throwIfKeyExists c o = true -> has c k = true ->
  fst (add w c k v o) = Rejected (AddFailed k)
  /\ map_get k (map (snd (add w c k v o)))
     = Some (mkCacheObject k (stored_value w (resolve_addAs c o) v) (now w)).
Proof.
  intros Hk Hv Hd Hh. pose proof (has_no_fault c k Hh) as Hf. split.
  - rewrite (add_settles w c k v o Hk Hv Hf). now rewrite Hd, Hh.
  - now apply add_stores.
Qed.

(** X1: with the duplicate policy off, [add] on a key that is in the store
    resolves and replaces the entry: [get] then yields the new value (when
    it is truthy). *)
Lemma add_duplicate_replaces (w : World) (c : Cache) (k : Key)
  (v : Value) (o : AddOptions) (t : option bool) :
  valid_key k = true -> valid_value v = true ->
  resolve_throwIfKeyExists c o = false -> has c k = true ->
  truthy (stored_value w (resolve_addAs c o) v) = true ->
  fst (add w c k v o) = Resolved tt
  /\ get (snd (add w c k v o)) k t
     = Resolved (stored_value w (resolve_addAs c o) v).
Proof.
  intros Hk Hv Hd Hh Ht. pose proof (has_no_fault c k Hh) as Hf. split.
  - rewrite (add_settles w c k v o Hk Hv Hf). now rewrite Hd.
  - rewrite (get_present _ k _ t (add_stores w c k v o Hk Hv Hf)).
    simpl. now rewrite Ht.
Qed.

(** C2: with [duplicateAddThrows: true], [add(k, v1)] then [add(k, v2)]:
    the second call rejects with the error named [add failed], yet [get(k)]
    then yields [v2], not [v1]; and at the limit the rejected call has
    evicted the oldest entry as well. *)
Theorem duplicate_add_rejects_but_replaces :
  get cache_with_v1 key_k None = Resolved (JsString "v1")
  /\ fst (add (world_at 1) cache_with_v1 key_k (JsString "v2") no_addOptions)
     = Rejected (AddFailed key_k)
  /\ get (snd (add (world_at 1) cache_with_v1 key_k (JsString "v2")
                 no_addOptions)) key_k None
     = Resolved (JsString "v2")
  /\ has (add_a_then_b options_limit_2_duplicateAddThrows) key_a = true
  /\ fst (add (world_at 1) (add_a_then_b options_limit_2_duplicateAddThrows)
            key_b (JsNumber 3) no_addOptions)
     = Rejected (AddFailed key_b)
  /\ has (snd (add (world_at 1)
                 (add_a_then_b options_limit_2_duplicateAddThrows)
                 key_b (JsNumber 3) no_addOptions)) key_a = false.
Proof. repeat split. Qed.

(** ** [add] then [get] *)

Lemma stored_value_byReference (w : World) (v : Value) :
  stored_value w byReference v = v.
Proof. unfold stored_value. destruct (typeof_object v); reflexivity. Qed.

Lemma stored_value_primitive (w : World) (a : AddObjectAs) (v : Value) :
  typeof_object v = false -> stored_value w a v = v.
Proof. unfold stored_value. now intros ->. Qed.

(** Under [clone] the stored value of an object has the content of the
    object and another reference, as long as the allocator hands out a
    reference that is not in use. *)
Lemma stored_value_clone (w : World) (o : JsObject) :
  obj_ref o <> next_ref w ->
  structurally_equal (stored_value w clone (JsObj o)) (JsObj o) = true
  /\ same_value_zero (stored_value w clone (JsObj o)) (JsObj o) = false.
Proof.
  intros Hr. simpl. rewrite !String.eqb_refl. split; trivial.
  apply Nat.eqb_neq. congruence.
Qed.

Lemma stored_value_stringify (w : World) (o : JsObject) :
  stored_value w stringify (JsObj o) = JsString (obj_json o).
Proof. reflexivity. Qed.

(** X2: [get] after [add] yields the value as [add] stored it, with no
    change on the way out, when that value is truthy. *)
Lemma get_after_add_truthy (w : World) (c : Cache) (k : Key) (v : Value)
  (o : AddOptions) (t : option bool) :
  valid_key k = true -> valid_value v = true -> add_faults c = false ->
  truthy (stored_value w (resolve_addAs c o) v) = true ->
  get (snd (add w c k v o)) k t
  = Resolved (stored_value w (resolve_addAs c o) v).
Proof.
  intros Hk Hv Hf Ht.
  rewrite (get_present _ k _ t (add_stores w c k v o Hk Hv Hf)).
  simpl. now rewrite Ht.
Qed.

(** C3: the number 0 and the empty string are accepted by [add] and
    stored, and [get] on their key resolves with [undefined]. *)
Theorem get_loses_falsy_value :
  add (world_at 0) (new_Cache no_options) key_k (JsNumber 0) no_addOptions
  = (Resolved tt,
     mkCache no_options [(key_k, mkCacheObject key_k (JsNumber 0) 0)])
  /\ get (mkCache no_options [(key_k, mkCacheObject key_k (JsNumber 0) 0)])
       key_k None
     = Resolved JsUndefined
  /\ add (world_at 0) (new_Cache no_options) key_k (JsString "") no_addOptions
     = (Resolved tt,
        mkCache no_options [(key_k, mkCacheObject key_k (JsString "") 0)])
  /\ get (mkCache no_options [(key_k, mkCacheObject key_k (JsString "") 0)])
       key_k None
     = Resolved JsUndefined.
Proof. repeat split. Qed.

(** ** The limit *)

(** C4: with [limit: 2] and the store at its limit, [add] on a key that is
    already stored, which would leave the count at 2, evicts the oldest
    entry all the same and leaves one entry. *)
Theorem replace_at_capacity_evicts :
  map_size (map (add_a_then_b (options_limit 2))) = 2%nat
  /\ has (add_a_then_b (options_limit 2)) key_a = true
  /\ has (add_a_then_b (options_limit 2)) key_b = true
  /\ add (world_at 1) (add_a_then_b (options_limit 2)) key_b (JsNumber 3)
       no_addOptions
     = (Resolved tt,
        mkCache (options_limit 2)
          [(key_b, mkCacheObject key_b (JsNumber 3) 1)])
  /\ has (snd (add (world_at 1) (add_a_then_b (options_limit 2)) key_b
                 (JsNumber 3) no_addOptions)) key_a = false.
Proof. repeat split. Qed.

(** ** [prune] *)

(** C5: with a duration of 500 and two entries added at time 0, the prune
    at time 600 removes the first and stops; the second, as old as the
    first, is still in the store. *)
Theorem prune_leaves_expired_entry :
  map (add_a_then_b (options_duration 500))
  = [(key_a, mkCacheObject key_a (JsNumber 1) 0);
     (key_b, mkCacheObject key_b (JsNumber 2) 0)]
  /\ is_expired 500 600 (mkCacheObject key_a (JsNumber 1) 0) = true
  /\ is_expired 500 600 (mkCacheObject key_b (JsNumber 2) 0) = true
  /\ map (prune (world_at 600) (add_a_then_b (options_duration 500)))
     = [(key_b, mkCacheObject key_b (JsNumber 2) 0)]
  /\ has (prune (world_at 600) (add_a_then_b (options_duration 500))) key_b
     = true.
Proof. repeat split. Qed.

(** ** The memoizer *)

(** C9: [minus_five] yields 0 on 5.  The first call of the memoized function
    with 5 calls it and resolves with 0; the second call does not call it
    and resolves with [undefined]. *)
Theorem memoized_falsy_result_comes_back_undefined :
  truthy (JsNumber 5) = true
  /\ memoized minus_five (world_at 0) memoizer_cache (JsNumber 5)
     = (Resolved (JsNumber 0),
        mkCache no_options
          [(JsString "5", mkCacheObject (JsString "5") (JsNumber 0) 0)],
        true)
  /\ memoized minus_five (world_at 600)
       (mkCache no_options
          [(JsString "5", mkCacheObject (JsString "5") (JsNumber 0) 0)])
       (JsNumber 5)
     = (Resolved JsUndefined,
        mkCache no_options
          [(JsString "5", mkCacheObject (JsString "5") (JsNumber 0) 0)],
        false).
Proof. repeat split. Qed.

(** ** First in, first out *)

Lemma map_has_app (k : Key) (a b : JsMap) :
  map_has k (a ++ b) = map_has k a || map_has k b.
Proof.
  unfold map_has.
  induction a as [|[k0 e0] a IH]; simpl.
  - now destruct (map_get k b).
  - destruct (same_value_zero k0 k); trivial.
Qed.

Lemma map_delete_absent (k : Key) (m : JsMap) :
  map_has k m = false -> map_delete k m = m.
Proof.
  unfold map_has.
  induction m as [|[k0 e0] m IH]; simpl; trivial.
  destruct (same_value_zero k0 k); [discriminate|].
  intros H. now rewrite IH.
Qed.

Lemma map_set_absent (k : Key) (e : CacheObject) (m : JsMap) :
  map_has k m = false -> map_set k e m = m ++ [(k, e)].
Proof.
  unfold map_has.
  induction m as [|[k0 e0] m IH]; simpl; trivial.
  destruct (same_value_zero k0 k); [discriminate|].
  intros H. now rewrite IH.
Qed.

Lemma unique_keys_app_absent (m es : JsMap) (k : Key) (e : CacheObject) :
  unique_keys (m ++ (k, e) :: es) = true -> map_has k m = false.
Proof.
  induction m as [|[k0 e0] m IH]; simpl; trivial.
  intros H. apply andb_true_iff in H. destruct H as [H0 Hu].
  apply negb_true_iff in H0. rewrite map_has_app in H0.
  apply orb_false_iff in H0. destruct H0 as [_ H0].
  unfold map_has in H0 |- *. simpl in H0 |- *.
  rewrite same_value_zero_sym.
  destruct (same_value_zero k k0); [discriminate|].
  apply (IH Hu).
Qed.

Lemma add_options (w : World) (c : Cache) (k : Key) (v : Value)
  (o : AddOptions) :
  options (snd (add w c k v o)) = options c.
Proof. exact (step_options c (CallAdd w k v o)). Qed.

(** [add] of a key that is not in the store: the entry goes last, after the
    oldest entry has left when the store is at its limit. *)
Lemma add_fresh_key (w : World) (c : Cache) (k : Key) (v : Value)
  (o : AddOptions) :
  valid_key k = true -> valid_value v = true ->
  has c k = false -> unique_keys (map c) = true -> add_faults c = false ->
  add w c k v o
  = (Resolved tt,
     mkCache (options c)
       ((if limit_reached c (map c) then tl (map c) else map c)
        ++ [(k, mkCacheObject k (stored_value w (resolve_addAs c o) v) (now w))])).
Proof.
  unfold valid_key, valid_value, has, add_faults.
  intros Hk Hv Hh Hu Hf.
  apply negb_true_iff in Hk. apply negb_true_iff in Hv.
  unfold add. rewrite Hk, Hv, Hh, andb_false_r. simpl.
  destruct (limit_reached c (map c)); simpl in *.
  - unfold Array_from. destruct (map c) as [|[oldest e] rest].
    + discriminate.
    + simpl in Hu. apply andb_true_iff in Hu. destruct Hu as [Ho Hu].
      apply negb_true_iff in Ho.
      simpl. rewrite same_value_zero_refl.
      rewrite (map_delete_absent oldest rest Ho).
      unfold map_has in Hh. simpl in Hh.
      destruct (same_value_zero oldest k); [discriminate|].
      now rewrite map_set_absent.
  - now rewrite map_set_absent.
Qed.

Lemma entry_for_options (c c' : Cache) (x : World * Key * Value) :
  options c' = options c -> entry_for c' x = entry_for c x.
Proof.
  intros H. destruct x as [[w k] v]. unfold entry_for, resolve_addAs.
  now rewrite H.
Qed.

Lemma unique_keys_app_l (a b : JsMap) :
  unique_keys (a ++ b) = true -> unique_keys a = true.
Proof.
  induction a as [|[k0 e0] a IH]; simpl; trivial.
  intros H. apply andb_true_iff in H. destruct H as [H0 Hu].
  rewrite (IH Hu), andb_true_r.
  apply negb_true_iff in H0. rewrite map_has_app in H0.
  apply orb_false_iff in H0. destruct H0 as [H0 _]. now rewrite H0.
Qed.

Lemma unique_keys_tl (m : JsMap) :
  unique_keys m = true -> unique_keys (tl m) = true.
Proof.
  destruct m as [|[k0 e0] m]; simpl; trivial.
  intros H. apply andb_true_iff in H. now destruct H.
Qed.

Lemma limit_reached_length (c : Cache) (n : nat) :
  limit (options c) = Some (Z.of_nat n) ->
  limit_reached c (map c) = Nat.eqb (length (map c)) n.
Proof.
  intros Hl. unfold limit_reached, map_size. rewrite Hl.
  destruct (Nat.eqb (length (map c)) n) eqn:E.
  - apply Nat.eqb_eq in E. apply Z.eqb_eq. lia.
  - apply Nat.eqb_neq in E. apply Z.eqb_neq. lia.
Qed.

(** One [add] of a new key under [limit: n]. *)
Lemma add_fresh_key_limit (n : nat) (w : World) (c : Cache) (k : Key)
  (v : Value) :
  limit (options c) = Some (Z.of_nat n) -> (1 <= n)%nat ->
  valid_call (w, k, v) = true ->
  unique_keys (map c ++ [entry_for c (w, k, v)]) = true ->
  map (snd (add w c k v no_addOptions))
  = (if Nat.eqb (length (map c)) n then tl (map c) else map c)
    ++ [entry_for c (w, k, v)].
Proof.
  intros Hl Hn Hv Hu.
  simpl in Hv. apply andb_true_iff in Hv. destruct Hv as [Hk Hval].
  assert (Hh : has c k = false).
  { unfold has. eapply unique_keys_app_absent. exact Hu. }
  pose proof (unique_keys_app_l _ _ Hu) as Hum.
  pose proof (limit_reached_length c n Hl) as Hlr.
  assert (Hf : add_faults c = false).
  { unfold add_faults, map_size. rewrite Hlr.
    destruct (Nat.eqb (length (map c)) n) eqn:E; trivial.
    apply Nat.eqb_eq in E. simpl. apply Nat.eqb_neq. lia. }
  rewrite (add_fresh_key w c k v no_addOptions Hk Hval Hh Hum Hf).
  simpl. now rewrite Hlr.
Qed.

(** The store after a run of [add]s with keys that are new each time: the
    last [n] of what was there and what was added, in order. *)
Lemma add_all_fifo (n : nat) (xs : list (World * Key * Value)) (c : Cache) :
  limit (options c) = Some (Z.of_nat n) -> (1 <= n)%nat ->
  (length (map c) <= n)%nat ->
  forallb valid_call xs = true ->
  unique_keys (map c ++ List.map (entry_for c) xs) = true ->
  map (add_all c xs)
  = skipn (length (map c) + length xs - n)
      (map c ++ List.map (entry_for c) xs).
Proof.
  revert c. induction xs as [|[[w k] v] xs IH]; intros c Hl Hn Hsz Hv Hu.
  - simpl. rewrite app_nil_r.
    replace (length (map c) + 0 - n)%nat with 0%nat by lia. reflexivity.
  - change (forallb valid_call ((w, k, v) :: xs))
      with (valid_call (w, k, v) && forallb valid_call xs) in Hv.
    apply andb_true_iff in Hv. destruct Hv as [Hx Hv].
    change (List.map (entry_for c) ((w, k, v) :: xs))
      with (entry_for c (w, k, v) :: List.map (entry_for c) xs) in Hu |- *.
    change (add_all c ((w, k, v) :: xs))
      with (add_all (snd (add w c k v no_addOptions)) xs).
    set (x := entry_for c (w, k, v)) in *.
    set (es := List.map (entry_for c) xs) in *.
    assert (Hu1 : unique_keys (map c ++ [x]) = true).
    { apply (unique_keys_app_l _ es). now rewrite <- app_assoc. }
    pose proof (add_fresh_key_limit n w c k v Hl Hn Hx Hu1) as Hm1.
    fold x in Hm1.
    set (c1 := snd (add w c k v no_addOptions)) in *.
    assert (Ho : options c1 = options c) by apply add_options.
    assert (Hext : List.map (entry_for c1) xs = es).
    { apply map_ext. intros y. now apply entry_for_options. }
    assert (Hu' : unique_keys (map c ++ x :: es) = true) by exact Hu.
    destruct (Nat.eqb (length (map c)) n) eqn:E.
    + apply Nat.eqb_eq in E.
      destruct (map c) as [|h rest] eqn:Em; [simpl in E; lia|].
      simpl tl in Hm1. simpl length in *.
      rewrite IH; rewrite ?Hext, ?Ho, ?Hm1; trivial.
      * rewrite <- app_assoc. simpl app. rewrite length_app. simpl length.
        replace (length rest + 1 + length xs - n)%nat with (length xs) by lia.
        replace (S (length rest) + S (length xs) - n)%nat
          with (S (length xs)) by lia.
        reflexivity.
      * rewrite length_app. simpl. lia.
      * rewrite <- app_assoc. simpl app.
        apply (unique_keys_tl (h :: rest ++ x :: es)). exact Hu'.
    + apply Nat.eqb_neq in E.
      rewrite IH; rewrite ?Hext, ?Ho, ?Hm1; trivial.
      * rewrite <- app_assoc. simpl app. rewrite length_app. simpl length.
        f_equal. lia.
      * rewrite length_app. simpl. lia.
      * rewrite <- app_assoc. exact Hu'.
Qed.

(** X3: with [limit: n], [n] at least 1, adding [n + 1] distinct keys to a
    new cache leaves the last [n] entries in order; the key added first is
    gone and the count is [n]. *)
Lemma fifo_keeps_last_n (o : CacheOptions) (n : nat)
  (x : World * Key * Value) (xs : list (World * Key * Value)) :
  limit o = Some (Z.of_nat n) -> (1 <= n)%nat -> length xs = n ->
  forallb valid_call (x :: xs) = true ->
  unique_keys (List.map (entry_for (new_Cache o)) (x :: xs)) = true ->
  map (add_all (new_Cache o) (x :: xs))
  = List.map (entry_for (new_Cache o)) xs
  /\ map_size (map (add_all (new_Cache o) (x :: xs))) = n
  /\ has (add_all (new_Cache o) (x :: xs)) (snd (fst x)) = false.
Proof.
  intros Hl Hn Hlen Hv Hu.
  assert (Hm : map (add_all (new_Cache o) (x :: xs))
               = List.map (entry_for (new_Cache o)) xs).
  { rewrite (add_all_fifo n (x :: xs) (new_Cache o) Hl Hn); trivial.
    - simpl map. simpl length. rewrite Hlen.
      replace (0 + S n - n)%nat with 1%nat by lia. reflexivity.
    - simpl. lia. }
  split; [exact Hm|split].
  - rewrite Hm. unfold map_size. now rewrite length_map.
  - unfold has. rewrite Hm.
    destruct x as [[w k] v]. simpl in Hu |- *.
    apply andb_true_iff in Hu. destruct Hu as [Hu _].
    now apply negb_true_iff in Hu.
Qed.

(** ** What [prune] keeps *)

Lemma In_map_has (k k' : Key) (e' : CacheObject) (m : JsMap) :
  In (k', e') m -> same_value_zero k' k = true -> map_has k m = true.
Proof.
  unfold map_has.
  induction m as [|[k0 e0] m IH]; simpl; [tauto|].
  intros [Hin|Hin] Hs.
  - inversion Hin; subst. now rewrite Hs.
  - destruct (same_value_zero k0 k); trivial. now apply IH.
Qed.

Lemma map_get_In_unique (k k' : Key) (e' : CacheObject) (m : JsMap) :
  unique_keys m = true -> In (k', e') m -> same_value_zero k' k = true ->
  map_get k m = Some e'.
Proof.
  induction m as [|[k0 e0] m IH]; simpl; [tauto|].
  intros Hu [Hin|Hin] Hs.
  - inversion Hin; subst. now rewrite Hs.
  - apply andb_true_iff in Hu. destruct Hu as [H0 Hu].
    apply negb_true_iff in H0.
    destruct (same_value_zero k0 k) eqn:E0.
    + rewrite same_value_zero_sym in E0.
      rewrite (In_map_has k0 k' e' m Hin
                 (same_value_zero_trans k' k k0 Hs E0)) in H0.
      discriminate.
    + now apply IH.
Qed.

(** The loop deletes only keys whose entry, in the array taken before the
    loop, is older than the bound. *)
Lemma prune_loop_keeps (expired : Z) (k : Key) (e : CacheObject)
  (entries : list (Key * CacheObject)) (i : nat) (m : JsMap) :
  (forall k' e', In (k', e') entries -> same_value_zero k' k = true ->
                 (timestamp e' <? expired) = false) ->
  map_get k m = Some e ->
  map_get k (prune_loop expired entries i m) = Some e.
Proof.
  revert i m. induction entries as [|[k0 e0] entries IH]; intros i m Hall Hg.
  - exact Hg.
  - simpl. destruct (i <? map_size m)%nat; [|exact Hg].
    apply IH.
    + intros k' e' Hin. apply Hall. now right.
    + destruct (timestamp e0 <? expired) eqn:Et; [|exact Hg].
      destruct (same_value_zero k0 k) eqn:E0.
      * rewrite (Hall k0 e0 (or_introl eq_refl) E0) in Et. discriminate.
      * now rewrite map_get_delete_other.
Qed.

(** X4: an entry whose age does not exceed the duration is still in the
    store after [prune]. *)
Lemma prune_keeps_unexpired (w : World) (c : Cache) (d : Z) (k : Key)
  (e : CacheObject) :
  unique_keys (map c) = true ->
  lifetime_duration (options c) = Some d ->
  map_get k (map c) = Some e ->
  now w - timestamp e <= d ->
  map_get k (map (prune w c)) = Some e.
Proof.
  intros Hu Hd Hg Hage. unfold prune. rewrite Hd. simpl.
  destruct (d =? 0) eqn:Ed; simpl; [exact Hg|].
  apply prune_loop_keeps; [|exact Hg].
  intros k' e' Hin Hs. unfold Array_from in Hin.
  rewrite (map_get_In_unique k k' e' (map c) Hu Hin Hs) in Hg.
  inversion Hg; subst. apply Z.ltb_ge. lia.
Qed.

(** ** The memoized function *)

Lemma memoized_without_arguments (fn : World -> JsValue -> JsValue)
  (w : World) (cache : Cache) (args : JsValue) :
  truthy args = false ->
  memoized fn w cache args = (Rejected MissingArguments, cache, false).
Proof. unfold memoized. now intros ->. Qed.

(** The key of a truthy number or string passes the key check of [add]. *)
Lemma JSON_stringify_primitive_valid (args : JsValue) :
  typeof_object args = false -> truthy args = true ->
  valid_key (JSON_stringify args) = true.
Proof.
  unfold valid_key, empty_key.
  destruct args as [| |s|n|o]; simpl; try discriminate; intros _ _.
  - reflexivity.
  - now rewrite number_toString_not_empty.
Qed.

(** X5: when the result of [fn] is truthy, the first call with an argument
    whose key is not in the cache calls [fn], and the second call with that
    argument, at whatever time, resolves with the result of the first and
    does not call [fn]. *)
Lemma memoized_twice_truthy (fn : World -> JsValue -> JsValue)
  (w1 w2 : World) (cache : Cache) (args : JsValue) :
  options cache = no_options ->
  truthy args = true ->
  valid_key (JSON_stringify args) = true ->
  has cache (JSON_stringify args) = false ->
  truthy (fn w1 args) = true ->
  let cache1 :=
    snd (add w1 cache (JSON_stringify args) (fn w1 args) no_addOptions) in
  memoized fn w1 cache args = (Resolved (fn w1 args), cache1, true)
  /\ memoized fn w2 cache1 args = (Resolved (fn w1 args), cache1, false)
  /\ options cache1 = no_options.
Proof.
  intros Ho Ha Hk Hh Hr cache1.
  assert (Hv : valid_value (fn w1 args) = true).
  { unfold valid_value. destruct (fn w1 args); simpl in *; congruence. }
  assert (Hf : add_faults cache = false).
  { unfold add_faults, limit_reached. now rewrite Ho. }
  assert (Hs : stored_value w1 (resolve_addAs cache no_addOptions) (fn w1 args)
               = fn w1 args).
  { unfold resolve_addAs. rewrite Ho. simpl. apply stored_value_byReference. }
  pose proof (add_settles w1 cache _ _ no_addOptions Hk Hv Hf) as Hfst.
  rewrite Hh, andb_false_r in Hfst.
  pose proof (add_stores w1 cache _ _ no_addOptions Hk Hv Hf) as Hget.
  rewrite Hs in Hget. fold cache1 in Hget.
  split; [|split].
  - unfold memoized. rewrite Ha, Hh. cbv zeta. cbn [negb].
    fold cache1 in Hfst. unfold cache1 in *.
    destruct (add w1 cache (JSON_stringify args) (fn w1 args) no_addOptions)
      as [s c'] eqn:E.
    simpl in Hfst. subst s. reflexivity.
  - unfold memoized. rewrite Ha. cbv zeta. cbn [negb].
    assert (Hh1 : has cache1 (JSON_stringify args) = true).
    { unfold has, map_has. now rewrite Hget. }
    rewrite Hh1.
    rewrite (get_present cache1 _ _ None Hget). simpl. now rewrite Hr.
  - unfold cache1. now rewrite add_options.
Qed.

(** ** Instances *)

Lemma add_duplicate_replaces_witness :
  has cache_plain_v1 key_k = true
  /\ get (snd (add (world_at 1) cache_plain_v1 key_k (JsString "v2")
                 no_addOptions)) key_k None
     = Resolved (JsString "v2").
Proof.
  split; [reflexivity|].
  exact (proj2 (add_duplicate_replaces (world_at 1) cache_plain_v1 key_k
                  (JsString "v2") no_addOptions None
                  eq_refl eq_refl eq_refl eq_refl eq_refl)).
Defined.

Lemma get_after_add_truthy_witness :
  get (snd (add (world_at 0)
              (new_Cache (mkCacheOptions None None None (Some stringify) None))
              key_k (JsObj object_foo) no_addOptions)) key_k None
  = Resolved (JsString "{foo:bar}").
Proof.
  exact (get_after_add_truthy (world_at 0)
           (new_Cache (mkCacheOptions None None None (Some stringify) None))
           key_k (JsObj object_foo) no_addOptions None
           eq_refl eq_refl eq_refl eq_refl).
Defined.

Lemma fifo_keeps_last_n_witness :
  map (add_all (new_Cache (options_limit 2)) three_adds)
  = [(key_b, mkCacheObject key_b (JsNumber 2) 1);
     (key_c, mkCacheObject key_c (JsNumber 3) 2)]
  /\ map_size (map (add_all (new_Cache (options_limit 2)) three_adds)) = 2%nat
  /\ has (add_all (new_Cache (options_limit 2)) three_adds) key_a = false.
Proof.
  exact (fifo_keeps_last_n (options_limit 2) 2 (world_at 0, key_a, JsNumber 1)
           [(world_at 1, key_b, JsNumber 2); (world_at 2, key_c, JsNumber 3)]
           eq_refl (le_S 1 1 (le_n 1)) eq_refl eq_refl eq_refl).
Defined.

Lemma prune_keeps_unexpired_witness :
  map_get key_k (map (prune (world_at 400)
                        (cache_added_at_0 key_k (JsString "v"))))
  = Some (mkCacheObject key_k (JsString "v") 0).
Proof.
  refine (prune_keeps_unexpired (world_at 400)
            (cache_added_at_0 key_k (JsString "v")) 500 key_k
            (mkCacheObject key_k (JsString "v") 0)
            eq_refl eq_refl eq_refl _).
  simpl. discriminate.
Defined.

Lemma memoized_twice_truthy_witness :
  memoized clock_plus (world_at 1000) memoizer_cache (JsNumber 5)
  = (Resolved (JsNumber 1005),
     mkCache no_options
       [(JsString "5", mkCacheObject (JsString "5") (JsNumber 1005) 1000)],
     true)
  /\ memoized clock_plus (world_at 1600)
       (mkCache no_options
          [(JsString "5", mkCacheObject (JsString "5") (JsNumber 1005) 1000)])
       (JsNumber 5)
     = (Resolved (JsNumber 1005),
        mkCache no_options
          [(JsString "5", mkCacheObject (JsString "5") (JsNumber 1005) 1000)],
        false).
Proof.
  pose proof (memoized_twice_truthy clock_plus (world_at 1000) (world_at 1600)
                memoizer_cache (JsNumber 5)
                eq_refl eq_refl eq_refl eq_refl eq_refl) as H.
  split; [exact (proj1 H) | exact (proj1 (proj2 H))].
Defined.

(** ** The size of the store *)

Lemma map_delete_length (k : Key) (m : JsMap) :
  (length (map_delete k m) <= length m)%nat.
Proof.
  induction m as [|[k0 e0] m IH]; simpl; trivial.
  destruct (same_value_zero k0 k); simpl; lia.
Qed.

Lemma map_delete_length_has (k : Key) (m : JsMap) :
  map_has k m = true -> (length (map_delete k m) < length m)%nat.
Proof.
  unfold map_has.
  induction m as [|[k0 e0] m IH]; simpl; [discriminate|].
  destruct (same_value_zero k0 k).
  - intros _. pose proof (map_delete_length k m). lia.
  - intros H. specialize (IH H). simpl. lia.
Qed.

Lemma map_set_length (k : Key) (e : CacheObject) (m : JsMap) :
  (length (map_set k e m) <= S (length m))%nat.
Proof.
  induction m as [|[k0 e0] m IH]; simpl; trivial.
  destruct (same_value_zero k0 k); simpl; lia.
Qed.

Lemma prune_loop_length (expired : Z) (entries : list (Key * CacheObject))
  (i : nat) (m : JsMap) :
  (length (prune_loop expired entries i m) <= length m)%nat.
Proof.
  revert i m. induction entries as [|[k0 e0] entries IH]; intros i m; simpl.
  - lia.
  - destruct (i <? map_size m)%nat; [|lia].
    destruct (timestamp e0 <? expired).
    + pose proof (IH (S i) (map_delete k0 m)).
      pose proof (map_delete_length k0 m). lia.
    + apply IH.
Qed.

Lemma prune_length (w : World) (c : Cache) :
  (length (map (prune w c)) <= length (map c))%nat.
Proof.
  unfold prune.
  destruct (negb (truthy_number (lifetime_duration (options c)))); simpl.
  - lia.
  - apply prune_loop_length.
Qed.

Lemma step_size_bound (n : nat) (c : Cache) (call : Call) :
  limit (options c) = Some (Z.of_nat n) ->
  (length (map c) <= n)%nat -> (length (map (step c call)) <= n)%nat.
Proof.
  intros Hl Hsz.
  destruct call as [w k v o|k t|k t|k| |w]; simpl; trivial.
  - unfold add.
    destruct (empty_key k); simpl; trivial.
    destruct (nullish v); simpl; trivial.
    rewrite (limit_reached_length c n Hl).
    destruct (Nat.eqb (length (map c)) n) eqn:E.
    + apply Nat.eqb_eq in E. unfold Array_from.
      destruct (map c) as [|[oldest e] rest] eqn:Em; simpl;
        [rewrite Em; simpl; lia|].
      rewrite same_value_zero_refl.
      match goal with |- (length (map_set ?a ?b ?m) <= _)%nat =>
        pose proof (map_set_length a b m) end.
      pose proof (map_delete_length oldest rest). simpl in E. lia.
    + apply Nat.eqb_neq in E. simpl.
      match goal with |- (length (map_set ?a ?b ?m) <= _)%nat =>
        pose proof (map_set_length a b m) end.
      lia.
  - unfold pop.
    destruct (negb (map_has k (map c))).
    + destruct (truthy_flag t || truthy_flag (throwOnEmpty (options c))); trivial.
    + destruct (get c k t); simpl; trivial.
      pose proof (map_delete_length k (map c)). lia.
  - lia.
  - pose proof (prune_length w c). lia.
Qed.

Lemma run_size_bound (n : nat) (calls : list Call) (c : Cache) :
  limit (options c) = Some (Z.of_nat n) ->
  (length (map c) <= n)%nat -> (length (map (run c calls)) <= n)%nat.
Proof.
  revert c. induction calls as [|call calls IH]; intros c Hl Hsz; simpl.
  - exact Hsz.
  - apply IH.
    + now rewrite step_options.
    + now apply step_size_bound.
Qed.

(** X7: a cache constructed with [limit: n] never holds more than [n]
    entries, whatever calls and prune ticks it has seen. *)
Theorem size_never_exceeds_limit (o : CacheOptions) (n : nat)
  (calls : list Call) :
  limit o = Some (Z.of_nat n) ->
  (map_size (map (run (new_Cache o) calls)) <= n)%nat.
Proof.
  intros Hl. unfold map_size. apply run_size_bound; simpl; [exact Hl | lia].
Qed.

Lemma size_never_exceeds_limit_witness :
  (map_size (map (run (new_Cache (options_limit 2))
                    [CallAdd (world_at 0) key_a (JsNumber 1) no_addOptions;
                     CallAdd (world_at 1) key_b (JsNumber 2) no_addOptions;
                     CallAdd (world_at 2) key_c (JsNumber 3) no_addOptions;
                     CallPop key_b None;
                     CallAdd (world_at 3) key_k (JsNumber 4) no_addOptions]))
   <= 2)%nat.
Proof.
  exact (size_never_exceeds_limit (options_limit 2) 2 _ eq_refl).
Defined.

(** ** What a call leaves alone *)

(** X8: [add(k, ...)] leaves the entry of every other key as it was, the
    key the store evicts at its limit, its oldest, apart. *)
Theorem add_leaves_other_keys (w : World) (c : Cache) (k k' : Key)
  (v : Value) (o : AddOptions) :
  same_value_zero k k' = false ->
  (limit_reached c (map c) = true ->
   forall oldest, oldest_key (map c) = Some oldest ->
                  same_value_zero oldest k' = false) ->
  map_get k' (map (snd (add w c k v o))) = map_get k' (map c).
Proof.
  intros Hne Hold. unfold add.
  destruct (empty_key k); simpl; trivial.
  destruct (nullish v); simpl; trivial.
  destruct (limit_reached c (map c)) eqn:Hlr.
  - unfold oldest_key, Array_from in *.
    destruct (map c) as [|[oldest e] rest] eqn:Em.
    + cbn [snd]. now rewrite Em.
    + cbn [snd map].
      rewrite (map_get_set_other k k' _ _ Hne).
      apply map_get_delete_other. now apply (Hold eq_refl).
  - simpl. now apply map_get_set_other.
Qed.

Lemma add_leaves_other_keys_witness :
  map_get key_a
    (map (snd (add (world_at 5) (add_a_then_b (options_limit 3)) key_c
                 (JsNumber 3) no_addOptions)))
  = map_get key_a (map (add_a_then_b (options_limit 3))).
Proof.
  refine (add_leaves_other_keys (world_at 5) (add_a_then_b (options_limit 3))
            key_c key_a (JsNumber 3) no_addOptions eq_refl _).
  intros H. discriminate H.
Defined.

(** X9: [pop(k)] leaves the entry of every other key, and the options, as
    they were. *)
Theorem pop_leaves_other_keys (c : Cache) (k k' : Key) (t : option bool) :
  same_value_zero k k' = false ->
  map_get k' (map (snd (pop c k t))) = map_get k' (map c)
  /\ options (snd (pop c k t)) = options c.
Proof.
  intros Hne. split; [|exact (step_options c (CallPop k t))].
  destruct (map_get k (map c)) as [e|] eqn:E.
  - rewrite (pop_present c k e t E). simpl.
    now apply map_get_delete_other.
  - assert (H : has c k = false) by (unfold has, map_has; now rewrite E).
    rewrite (pop_absent c k t H).
    destruct (get_throwOnEmpty c t); reflexivity.
Qed.

Lemma pop_leaves_other_keys_witness :
  map_get key_a (map (snd (pop (add_a_then_b no_options) key_b None)))
  = Some (mkCacheObject key_a (JsNumber 1) 0).
Proof.
  exact (proj1 (pop_leaves_other_keys (add_a_then_b no_options) key_b key_a
                  None eq_refl)).
Defined.

(** ** [clear] *)

(** X10: after [clear] no key is in the store, and the cache takes a valid
    [add] as a new one would, whatever it held: the call resolves, never as
    a duplicate and without an eviction, the store holds that one entry,
    and [get] yields its value (when truthy).  A limit of 0 apart. *)
Theorem clear_then_add (c : Cache) (w : World) (k : Key) (v : Value)
  (o : AddOptions) (t : option bool) :
  valid_key k = true -> valid_value v = true ->
  limit (options c) <> Some 0 ->
  truthy (stored_value w (resolve_addAs c o) v) = true ->
  (forall k', has (snd (clear c)) k' = false)
  /\ add w (snd (clear c)) k v o
     = (Resolved tt,
        mkCache (options c)
          [(k, mkCacheObject k (stored_value w (resolve_addAs c o) v) (now w))])
  /\ get (snd (add w (snd (clear c)) k v o)) k t
     = Resolved (stored_value w (resolve_addAs c o) v).
Proof.
  unfold valid_key, valid_value. intros Hk Hv Hl Ht.
  apply negb_true_iff in Hk. apply negb_true_iff in Hv.
  assert (Ha : add w (snd (clear c)) k v o
               = (Resolved tt,
                  mkCache (options c)
                    [(k, mkCacheObject k
                           (stored_value w (resolve_addAs c o) v) (now w))])).
  { unfold add, clear. cbn [snd map options].
    rewrite Hk, Hv. cbn [orb].
    unfold limit_reached. cbn [options map_size length].
    destruct (limit (options c)) as [n|] eqn:El.
    - assert (E : (n =? Z.of_nat 0) = false).
      { apply Z.eqb_neq. simpl. congruence. }
      rewrite E. unfold map_has. simpl. now rewrite andb_false_r.
    - unfold map_has. simpl. now rewrite andb_false_r. }
  split; [reflexivity|]. split; [exact Ha|].
  rewrite Ha. cbn [snd].
  unfold get, map_has. cbn [map map_get].
  rewrite same_value_zero_refl, andb_false_r. simpl. now rewrite Ht.
Qed.

Lemma clear_then_add_witness :
  add (world_at 9) (snd (clear (add_a_then_b (options_limit 2)))) key_c
    (JsNumber 3) no_addOptions
  = (Resolved tt,
     mkCache (options_limit 2) [(key_c, mkCacheObject key_c (JsNumber 3) 9)]).
Proof.
  refine (proj1 (proj2 (clear_then_add (add_a_then_b (options_limit 2))
                          (world_at 9) key_c (JsNumber 3) no_addOptions None
                          eq_refl eq_refl _ eq_refl))).
  simpl. discriminate.
Defined.

(** ** [prune], tick after tick *)

Lemma In_map_delete (x : Key * CacheObject) (k : Key) (m : JsMap) :
  In x (map_delete k m) -> In x m.
Proof.
  induction m as [|[k0 e0] m IH]; simpl; trivial.
  destruct (same_value_zero k0 k); simpl; intuition.
Qed.

Lemma prune_loop_In (x : Key * CacheObject) (expired : Z)
  (entries : list (Key * CacheObject)) (i : nat) (m : JsMap) :
  In x (prune_loop expired entries i m) -> In x m.
Proof.
  revert i m. induction entries as [|[k0 e0] entries IH]; intros i m; simpl.
  - trivial.
  - destruct (i <? map_size m)%nat; trivial.
    intros H. apply IH in H.
    destruct (timestamp e0 <? expired); trivial.
    now apply In_map_delete in H.
Qed.

Lemma prune_loop_none_expired (expired : Z)
  (entries : list (Key * CacheObject)) (i : nat) (m : JsMap) :
  (forall x, In x entries -> (timestamp (snd x) <? expired) = false) ->
  prune_loop expired entries i m = m.
Proof.
  revert i. induction entries as [|[k0 e0] entries IH]; intros i Hall; simpl.
  - reflexivity.
  - destruct (i <? map_size m)%nat; trivial.
    pose proof (Hall (k0, e0) (or_introl eq_refl)) as H0. simpl in H0.
    rewrite H0.
    apply IH. intros x Hx. apply Hall. now right.
Qed.

(** Until its first delete the loop visits every entry, so it reaches the
    first one that is too old. *)
Lemma prune_loop_progress (expired : Z)
  (entries : list (Key * CacheObject)) (i : nat) (m : JsMap) :
  length m = (i + length entries)%nat ->
  (forall x, In x entries -> map_has (fst x) m = true) ->
  (exists x, In x entries /\ (timestamp (snd x) <? expired) = true) ->
  (length (prune_loop expired entries i m) < length m)%nat.
Proof.
  revert i. induction entries as [|[k0 e0] entries IH];
    intros i Hlen Hin [x [Hx Hexp]].
  - destruct Hx.
  - simpl. simpl in Hlen.
    assert (Hi : (i <? map_size m)%nat = true)
      by (apply Nat.ltb_lt; unfold map_size; lia).
    rewrite Hi.
    destruct (timestamp e0 <? expired) eqn:E0.
    + pose proof (prune_loop_length expired entries (S i) (map_delete k0 m)).
      pose proof (map_delete_length_has k0 m
                    (Hin (k0, e0) (or_introl eq_refl))).
      lia.
    + apply IH.
      * lia.
      * intros y Hy. apply Hin. now right.
      * destruct Hx as [Hx|Hx].
        -- subst x. simpl in Hexp. congruence.
        -- exists x. auto.
Qed.

Lemma prune_with_duration (w : World) (c : Cache) (d : Z) :
  lifetime_duration (options c) = Some d -> d <> 0 ->
  prune w c
  = mkCache (options c) (prune_loop (now w - d) (map c) 0 (map c)).
Proof.
  intros Hd Hnz. unfold prune, Array_from. rewrite Hd. simpl.
  apply Z.eqb_neq in Hnz. now rewrite Hnz.
Qed.

Lemma any_expired_false (d t : Z) (m : JsMap) :
  any_expired d t m = false ->
  forall x, In x m -> (timestamp (snd x) <? t - d) = false.
Proof.
  unfold any_expired. intros H x Hx.
  destruct (timestamp (snd x) <? t - d) eqn:E; trivial.
  assert (Ht : existsb (fun x => is_expired d t (snd x)) m = true).
  { apply existsb_exists. exists x. split; trivial. }
  congruence.
Qed.

Lemma prune_shrinks (w : World) (c : Cache) (d : Z) :
  lifetime_duration (options c) = Some d -> d <> 0 ->
  any_expired d (now w) (map c) = true ->
  (length (map (prune w c)) < length (map c))%nat.
Proof.
  intros Hd Hnz He. rewrite (prune_with_duration w c d Hd Hnz). simpl.
  apply prune_loop_progress.
  - reflexivity.
  - intros [k e] Hx. simpl.
    apply (In_map_has k k e (map c) Hx), same_value_zero_refl.
  - unfold any_expired in He. apply existsb_exists in He.
    destruct He as [x [Hx He]]. exists x. auto.
Qed.

Lemma prune_In (w : World) (c : Cache) (x : Key * CacheObject) :
  In x (map (prune w c)) -> In x (map c).
Proof.
  unfold prune.
  destruct (negb (truthy_number (lifetime_duration (options c)))); trivial.
  simpl. apply prune_loop_In.
Qed.

Lemma prune_nothing_expired (w : World) (c : Cache) (d : Z) :
  lifetime_duration (options c) = Some d -> d <> 0 ->
  any_expired d (now w) (map c) = false -> prune w c = c.
Proof.
  intros Hd Hnz He. rewrite (prune_with_duration w c d Hd Hnz).
  rewrite prune_loop_none_expired by (apply (any_expired_false d); exact He).
  now destruct c.
Qed.

(** X11: while some entry is older than the duration, a prune tick removes
    at least one entry; a tick only removes: every entry it leaves was in
    the store before, as it was; and with no entry older than the duration
    it changes nothing. *)
Theorem prune_tick_progress (w : World) (c : Cache) (d : Z) :
  lifetime_duration (options c) = Some d -> d <> 0 ->
  (any_expired d (now w) (map c) = true ->
   (map_size (map (prune w c)) < map_size (map c))%nat)
  /\ (forall x, In x (map (prune w c)) -> In x (map c))
  /\ (any_expired d (now w) (map c) = false -> prune w c = c).
Proof.
  intros Hd Hnz. split; [|split].
  - now apply prune_shrinks.
  - apply prune_In.
  - now apply prune_nothing_expired.
Qed.

Lemma prune_tick_progress_witness :
  (map_size (map (prune (world_at 600) (add_a_then_b (options_duration 500))))
   < map_size (map (add_a_then_b (options_duration 500))))%nat.
Proof.
  refine (proj1 (prune_tick_progress (world_at 600)
                   (add_a_then_b (options_duration 500)) 500 eq_refl _)
            eq_refl).
  discriminate.
Defined.

Lemma prune_options (w : World) (c : Cache) :
  options (prune w c) = options c.
Proof. exact (step_options c (Tick w)). Qed.

Lemma ticks_succ (w : World) (n : nat) (c : Cache) :
  ticks w (S n) c = ticks w n (prune w c).
Proof.
  unfold ticks. induction n as [|n IH]; simpl in *; trivial.
  now rewrite IH.
Qed.

Lemma ticks_settled (w : World) (n : nat) (c : Cache) (d : Z) :
  lifetime_duration (options c) = Some d -> d <> 0 ->
  any_expired d (now w) (map c) = false -> ticks w n c = c.
Proof.
  intros Hd Hnz He. induction n as [|n IH]; trivial.
  rewrite ticks_succ. rewrite (prune_nothing_expired w c d Hd Hnz He).
  exact IH.
Qed.

(** X12: pruning is eventual: as many ticks as the store has entries, at
    one reading of the clock, leave no entry older than the duration. *)
Theorem prune_ticks_remove_all_expired (w : World) (d : Z) (n : nat)
  (c : Cache) :
  lifetime_duration (options c) = Some d -> d <> 0 ->
  (map_size (map c) <= n)%nat ->
  any_expired d (now w) (map (ticks w n c)) = false.
Proof.
  unfold map_size. revert c. induction n as [|n IH]; intros c Hd Hnz Hsz.
  - destruct (map c) eqn:Em; simpl in Hsz; [|lia].
    unfold ticks. simpl. now rewrite Em.
  - rewrite ticks_succ.
    destruct (any_expired d (now w) (map c)) eqn:He.
    + apply IH; trivial.
      * now rewrite prune_options.
      * pose proof (prune_shrinks w c d Hd Hnz He). lia.
    + rewrite (prune_nothing_expired w c d Hd Hnz He).
      now rewrite (ticks_settled w n c d Hd Hnz He).
Qed.

Lemma prune_ticks_remove_all_expired_witness :
  any_expired 500 600
    (map (ticks (world_at 600) 2 (add_a_then_b (options_duration 500))))
  = false.
Proof.
  refine (prune_ticks_remove_all_expired (world_at 600) 500 2
            (add_a_then_b (options_duration 500)) eq_refl _ _).
  - discriminate.
  - apply le_n.
Defined.

(** ** The memoized function, call after call *)

Lemma map_get_cong (a b : Key) (m : JsMap) :
  same_value_zero a b = true -> map_get a m = map_get b m.
Proof.
  intros H. induction m as [|[k0 e0] m IH]; simpl; trivial.
  rewrite (same_value_zero_cong a b k0 H). now rewrite IH.
Qed.

Lemma add_get_other_unlimited (w : World) (c : Cache) (k k' : Key)
  (v : Value) (o : AddOptions) :
  limit (options c) = None -> same_value_zero k k' = false ->
  map_get k' (map (snd (add w c k v o))) = map_get k' (map c).
Proof.
  intros Hl Hne. unfold add.
  destruct (empty_key k); simpl; trivial.
  destruct (nullish v); simpl; trivial.
  unfold limit_reached. rewrite Hl. simpl.
  now apply map_get_set_other.
Qed.

(** The cache after one call is the cache before it or the cache after the
    [add] of the miss. *)
Lemma memoized_cache (fn : World -> JsValue -> JsValue) (w : World)
  (cache : Cache) (args : JsValue) :
  snd (fst (memoized fn w cache args)) = cache
  \/ (has cache (JSON_stringify args) = false
      /\ snd (fst (memoized fn w cache args))
         = snd (add w cache (JSON_stringify args) (fn w args) no_addOptions)).
Proof.
  unfold memoized.
  destruct (negb (truthy args)); [now left|]. cbv zeta.
  destruct (has cache (JSON_stringify args)); [now left|].
  right. split; trivial.
  destruct (add w cache (JSON_stringify args) (fn w args) no_addOptions)
    as [[u|r|] c']; reflexivity.
Qed.

Lemma memoized_keeps_entry (fn : World -> JsValue -> JsValue) (w : World)
  (cache : Cache) (args : JsValue) (k : Key) (e : CacheObject) :
  options cache = no_options -> map_get k (map cache) = Some e ->
  options (snd (fst (memoized fn w cache args))) = no_options
  /\ map_get k (map (snd (fst (memoized fn w cache args)))) = Some e.
Proof.
  intros Ho Hg.
  destruct (memoized_cache fn w cache args) as [-> | [Hh ->]]; [auto|].
  split; [now rewrite add_options|].
  rewrite add_get_other_unlimited; trivial.
  - now rewrite Ho.
  - destruct (same_value_zero (JSON_stringify args) k) eqn:E; trivial.
    unfold has, map_has in Hh.
    rewrite (map_get_cong _ _ (map cache) E), Hg in Hh. discriminate.
Qed.

Lemma memoized_all_keeps_entry (fn : World -> JsValue -> JsValue)
  (calls : list (World * JsValue)) (cache : Cache) (k : Key)
  (e : CacheObject) :
  options cache = no_options -> map_get k (map cache) = Some e ->
  options (memoized_all fn cache calls) = no_options
  /\ map_get k (map (memoized_all fn cache calls)) = Some e.
Proof.
  revert cache. induction calls as [|[w args] calls IH]; intros cache Ho Hg.
  - auto.
  - simpl.
    destruct (memoized_keeps_entry fn w cache args k e Ho Hg) as [Ho' Hg'].
    now apply IH.
Qed.

(** X13: a result that is in the memoizer's cache stays: after any further
    calls of the memoized function, with whatever arguments, a call with
    the argument of that result resolves with it (when truthy) and does not
    call the function. *)
Theorem memoized_result_stays (fn : World -> JsValue -> JsValue)
  (cache : Cache) (args : JsValue) (e : CacheObject)
  (calls : list (World * JsValue)) (w : World) :
  options cache = no_options -> truthy args = true ->
  map_get (JSON_stringify args) (map cache) = Some e ->
  truthy (value e) = true ->
  memoized fn w (memoized_all fn cache calls) args
  = (Resolved (value e), memoized_all fn cache calls, false).
Proof.
  intros Ho Ha Hg Hv.
  destruct (memoized_all_keeps_entry fn calls cache _ e Ho Hg) as [_ Hg'].
  unfold memoized. rewrite Ha. cbv zeta. cbn [negb].
  unfold has, map_has. rewrite Hg'.
  rewrite (get_present _ _ e None Hg'). simpl. now rewrite Hv.
Qed.

Lemma memoized_result_stays_witness :
  memoized clock_plus (world_at 9000)
    (memoized_all clock_plus
       (mkCache no_options
          [(JsString "5", mkCacheObject (JsString "5") (JsNumber 1005) 1000)])
       [(world_at 2000, JsNumber 6); (world_at 3000, JsNumber 7)])
    (JsNumber 5)
  = (Resolved (JsNumber 1005),
     memoized_all clock_plus
       (mkCache no_options
          [(JsString "5", mkCacheObject (JsString "5") (JsNumber 1005) 1000)])
       [(world_at 2000, JsNumber 6); (world_at 3000, JsNumber 7)],
     false).
Proof.
  exact (memoized_result_stays clock_plus
           (mkCache no_options
              [(JsString "5",
                mkCacheObject (JsString "5") (JsNumber 1005) 1000)])
           (JsNumber 5) (mkCacheObject (JsString "5") (JsNumber 1005) 1000)
           [(world_at 2000, JsNumber 6); (world_at 3000, JsNumber 7)]
           (world_at 9000) eq_refl eq_refl eq_refl eq_refl).
Defined.

(** X14: the memoizer tells arguments apart by [JSON.stringify] alone:
    after a first call that misses and yields a truthy result, a call with
    another argument of the same serialization, two objects of the same
    content say, resolves with the result of the first and does not call
    the function. *)
Theorem memoized_keys_by_serialization (fn : World -> JsValue -> JsValue)
  (w1 w2 : World) (cache : Cache) (args1 args2 : JsValue) :
  options cache = no_options ->
  truthy args1 = true -> truthy args2 = true ->
  JSON_stringify args2 = JSON_stringify args1 ->
  valid_key (JSON_stringify args1) = true ->
  has cache (JSON_stringify args1) = false ->
  truthy (fn w1 args1) = true ->
  memoized fn w2 (snd (fst (memoized fn w1 cache args1))) args2
  = (Resolved (fn w1 args1), snd (fst (memoized fn w1 cache args1)), false).
Proof.
  intros Ho Ha1 Ha2 Hj Hk Hh Hr.
  assert (Hv : valid_value (fn w1 args1) = true).
  { unfold valid_value. destruct (fn w1 args1); simpl in *; congruence. }
  assert (Hf : add_faults cache = false).
  { unfold add_faults, limit_reached. now rewrite Ho. }
  assert (Hs : stored_value w1 (resolve_addAs cache no_addOptions)
                 (fn w1 args1) = fn w1 args1).
  { unfold resolve_addAs. rewrite Ho. simpl. apply stored_value_byReference. }
  pose proof (add_stores w1 cache _ _ no_addOptions Hk Hv Hf) as Hget.
  rewrite Hs in Hget.
  destruct (memoized_cache fn w1 cache args1) as [Hc | [_ Hc]].
  - exfalso. unfold memoized in Hc. rewrite Ha1, Hh in Hc.
    cbv zeta in Hc. cbn [negb] in Hc.
    destruct (add w1 cache (JSON_stringify args1) (fn w1 args1) no_addOptions)
      as [[u|r|] c'] eqn:E; simpl in Hc, Hget; subst c';
      unfold has, map_has in Hh; rewrite Hget in Hh; discriminate.
  - rewrite Hc.
    unfold memoized. rewrite Ha2, Hj. cbv zeta. cbn [negb].
    unfold has, map_has. rewrite Hget.
    rewrite (get_present _ _ _ None Hget). simpl. now rewrite Hr.
Qed.

Lemma memoized_keys_by_serialization_witness :
  memoized (fun _ _ => JsString "r") (world_at 1)
    (snd (fst (memoized (fun _ _ => JsString "r") (world_at 0) memoizer_cache
                 (JsObj object_foo))))
    (JsObj (mkObject 8 "[object Object]" "{foo:bar}"))
  = (Resolved (JsString "r"),
     snd (fst (memoized (fun _ _ => JsString "r") (world_at 0) memoizer_cache
                 (JsObj object_foo))),
     false).
Proof.
  exact (memoized_keys_by_serialization (fun _ _ => JsString "r")
           (world_at 0) (world_at 1) memoizer_cache (JsObj object_foo)
           (JsObj (mkObject 8 "[object Object]" "{foo:bar}"))
           eq_refl eq_refl eq_refl eq_refl eq_refl eq_refl eq_refl).
Defined.

(** X15: a function that yields [undefined] or [null] is never memoized:
    the call on a miss calls it, rejects with the error named [Empty value]
    and leaves the cache as it was, so the next call does the same. *)
Theorem memoized_nullish_result_not_cached
  (fn : World -> JsValue -> JsValue) (w : World) (cache : Cache)
  (args : JsValue) :
  truthy args = true -> valid_key (JSON_stringify args) = true ->
  has cache (JSON_stringify args) = false ->
  nullish (fn w args) = true ->
  memoized fn w cache args = (Rejected EmptyValue, cache, true).
Proof.
  unfold valid_key. intros Ha Hk Hh Hn. apply negb_true_iff in Hk.
  unfold memoized. rewrite Ha, Hh. cbv zeta. cbn [negb].
  unfold add. now rewrite Hk, Hn.
Qed.

Lemma memoized_nullish_result_not_cached_witness :
  memoized yields_undefined (world_at 0) memoizer_cache (JsNumber 5)
  = (Rejected EmptyValue, memoizer_cache, true).
Proof.
  exact (memoized_nullish_result_not_cached yields_undefined (world_at 0)
           memoizer_cache (JsNumber 5) eq_refl eq_refl eq_refl eq_refl).
Defined.

(** ** The earlier class against the later one *)

(** X16: the earlier [pop] never rejects: on a key that is not in the store
    it resolves with [undefined] and leaves the cache as it is, also where
    [throwOnEmpty] is set and the later [pop] rejects; on a key that is in
    the store the two do the same. *)
Theorem legacy_pop_never_rejects (c : Cache) (k : Key) (t : option bool) :
  is_rejected (fst (Legacy.pop c k t)) = false
  /\ (has c k = false -> Legacy.pop c k t = (Resolved JsUndefined, c))
  /\ (has c k = false -> get_throwOnEmpty c t = true ->
      fst (pop c k t) = Rejected (PopErrorString k))
  /\ (has c k = true -> Legacy.pop c k t = pop c k t)
  /\ has (snd (Legacy.pop c k t)) k = false.
Proof.
  unfold Legacy.pop, has.
  destruct (map_get k (map c)) as [e|] eqn:E.
  - assert (Hh : map_has k (map c) = true) by (unfold map_has; now rewrite E).
    rewrite Hh, (get_present c k e t E), (pop_present c k e t E). simpl.
    repeat split; try discriminate.
    apply map_has_delete_same.
  - assert (Hh : map_has k (map c) = false) by (unfold map_has; now rewrite E).
    rewrite Hh. simpl. repeat split; trivial; try discriminate.
    intros _ Ht. rewrite (pop_absent c k t Hh). now rewrite Ht.
Qed.

Lemma legacy_stored_value (w : World) (c : Cache) (v : Value)
  (o : Legacy.AddOptions) :
  (Legacy.addObjectAs o = Undefined ->
   addObjectsAs (options c) = None
   \/ addObjectsAs (options c) = Some byReference) ->
  Legacy.stored_value w (Legacy.merged_addObjectAs c o) v
  = stored_value w (resolve_addAs c (later_addOptions o)) v.
Proof.
  intros H.
  unfold Legacy.stored_value, stored_value, Legacy.merged_addObjectAs,
    resolve_addAs, later_addOptions. simpl.
  destruct (typeof_object v); trivial.
  destruct (Legacy.addObjectAs o) as [| |[| |]]; simpl; trivial.
  - destruct (addObjectsAs (options c)) as [[| |]|]; reflexivity.
  - destruct (H eq_refl) as [-> | ->]; reflexivity.
Qed.

Lemma legacy_throws (c : Cache) (o : Legacy.AddOptions) :
  (Legacy.duplicateAddThrows o = Given false
   \/ Legacy.duplicateAddThrows o = Undefined ->
   duplicateAddThrows (options c) <> Some true) ->
  truthy_flag (Legacy.merged_duplicateAddThrows c o)
  = resolve_throwIfKeyExists c (later_addOptions o).
Proof.
  intros H.
  unfold Legacy.merged_duplicateAddThrows, resolve_throwIfKeyExists,
    constructor_duplicateAddThrows, later_addOptions. simpl.
  destruct (Legacy.duplicateAddThrows o) as [| |[|]]; simpl; trivial.
  - assert (Hc : duplicateAddThrows (options c) <> Some true) by auto.
    destruct (duplicateAddThrows (options c)) as [[|]|]; simpl; trivial.
    congruence.
  - assert (Hc : duplicateAddThrows (options c) <> Some true) by auto.
    destruct (duplicateAddThrows (options c)) as [[|]|]; simpl; trivial.
    congruence.
Qed.

(** X17: the earlier [add] does what the later [add] does with the same
    storage mode and duplicate flag, whatever [lifetime] the call gives,
    with two exceptions: a call whose [duplicateAddThrows] is [false] or
    [undefined] on a cache constructed with [duplicateAddThrows: true], and
    a call whose [addObjectAs] is [undefined] on a cache constructed with
    ['clone'] or ['stringify']. *)
Theorem legacy_add_agrees (w : World) (c : Cache) (k : Key) (v : Value)
  (o : Legacy.AddOptions) :
  (Legacy.duplicateAddThrows o = Given false
   \/ Legacy.duplicateAddThrows o = Undefined ->
   duplicateAddThrows (options c) <> Some true) ->
  (Legacy.addObjectAs o = Undefined ->
   addObjectsAs (options c) = None
   \/ addObjectsAs (options c) = Some byReference) ->
  Legacy.add w c k v o = add w c k v (later_addOptions o).
Proof.
  intros Hd Hm. unfold Legacy.add, add.
  rewrite (legacy_throws c o Hd), (legacy_stored_value w c v o Hm).
  reflexivity.
Qed.

Lemma legacy_add_agrees_witness :
  Legacy.add (world_at 3) cache_with_v1 key_k (JsString "v2")
    (Legacy.mkAddOptions (Given clone) (Given 100) Missing)
  = add (world_at 3) cache_with_v1 key_k (JsString "v2")
      (mkAddOptions (Some clone) None).
Proof.
  refine (legacy_add_agrees (world_at 3) cache_with_v1 key_k (JsString "v2")
            (Legacy.mkAddOptions (Given clone) (Given 100) Missing) _ _).
  - intros [H|H]; discriminate H.
  - intros H; discriminate H.
Defined.

(** X18: where they differ on the flag: on a cache constructed with
    [duplicateAddThrows: true], a call on a stored key whose
    [duplicateAddThrows] is [false] or [undefined] resolves in the earlier
    class and rejects with the error named [add failed] in the later one;
    both leave the same store, and in it the key holds the new value and
    the time of the call. *)
Theorem legacy_add_call_can_switch_off (w : World) (c : Cache) (k : Key)
  (v : Value) (o : Legacy.AddOptions) :
  valid_key k = true -> valid_value v = true -> has c k = true ->
  duplicateAddThrows (options c) = Some true ->
  (Legacy.duplicateAddThrows o = Given false
   \/ Legacy.duplicateAddThrows o = Undefined) ->
  (Legacy.addObjectAs o = Undefined ->
   addObjectsAs (options c) = None
   \/ addObjectsAs (options c) = Some byReference) ->
  fst (Legacy.add w c k v o) = Resolved tt
  /\ fst (add w c k v (later_addOptions o)) = Rejected (AddFailed k)
  /\ snd (Legacy.add w c k v o) = snd (add w c k v (later_addOptions o))
  /\ map_get k (map (snd (Legacy.add w c k v o)))
     = Some (mkCacheObject k
               (Legacy.stored_value w (Legacy.merged_addObjectAs c o) v)
               (now w)).
Proof.
  intros Hk Hv Hh Hc Ho Hm.
  pose proof (has_no_fault c k Hh) as Hf.
  assert (Hlater : resolve_throwIfKeyExists c (later_addOptions o) = true).
  { unfold resolve_throwIfKeyExists. rewrite Hc. apply orb_true_r. }
  assert (Hearlier : truthy_flag (Legacy.merged_duplicateAddThrows c o)
                     = false).
  { unfold Legacy.merged_duplicateAddThrows.
    destruct Ho as [-> | ->]; reflexivity. }
  assert (Hfst2 : fst (add w c k v (later_addOptions o))
                  = Rejected (AddFailed k)).
  { rewrite (add_settles w c k v _ Hk Hv Hf). now rewrite Hlater, Hh. }
  pose proof (add_stores w c k v (later_addOptions o) Hk Hv Hf) as Hget.
  rewrite <- (legacy_stored_value w c v o Hm) in Hget.
  assert (Hsnd : snd (Legacy.add w c k v o)
                 = snd (add w c k v (later_addOptions o))).
  { unfold valid_key, valid_value in Hk, Hv.
    apply negb_true_iff in Hk. apply negb_true_iff in Hv.
    unfold Legacy.add, add.
    rewrite (legacy_stored_value w c v o Hm), Hk, Hv. simpl.
    destruct (limit_reached c (map c)); [|reflexivity].
    unfold Array_from. destruct (map c) as [|[oldest e] rest]; reflexivity. }
  split; [|split; [exact Hfst2|split; [exact Hsnd|now rewrite Hsnd]]].
  unfold valid_key, valid_value, has, add_faults in *.
  apply negb_true_iff in Hk. apply negb_true_iff in Hv.
  unfold Legacy.add. rewrite Hk, Hv, Hearlier. simpl.
  destruct (limit_reached c (map c)); [|reflexivity].
  unfold Array_from. unfold map_has in Hh.
  destruct (map c) as [|[oldest e] rest]; [discriminate|reflexivity].
Qed.

Lemma legacy_add_call_can_switch_off_witness :
  fst (Legacy.add (world_at 3) cache_with_v1 key_k (JsString "v2")
         (Legacy.mkAddOptions Missing Missing (Given false))) = Resolved tt
  /\ fst (add (world_at 3) cache_with_v1 key_k (JsString "v2")
            (mkAddOptions None (Some false))) = Rejected (AddFailed key_k)
  /\ map_get key_k
       (map (snd (Legacy.add (world_at 3) cache_with_v1 key_k (JsString "v2")
                    (Legacy.mkAddOptions Missing Missing (Given false)))))
     = Some (mkCacheObject key_k (JsString "v2") 3).
Proof.
  assert (Hm : Legacy.addObjectAs
                 (Legacy.mkAddOptions Missing Missing (Given false))
               = Undefined ->
               addObjectsAs (options cache_with_v1) = None
               \/ addObjectsAs (options cache_with_v1) = Some byReference)
    by (intros H; discriminate H).
  pose proof (legacy_add_call_can_switch_off (world_at 3) cache_with_v1 key_k
                (JsString "v2")
                (Legacy.mkAddOptions Missing Missing (Given false))
                eq_refl eq_refl eq_refl eq_refl (or_introl eq_refl) Hm) as H.
  split; [exact (proj1 H)|split].
  - exact (proj1 (proj2 H)).
  - exact (proj2 (proj2 (proj2 H))).
Defined.

(** ** Keys are stored once *)

Lemma map_has_delete_absent (k k' : Key) (m : JsMap) :
  map_has k' m = false -> map_has k' (map_delete k m) = false.
Proof.
  unfold map_has.
  induction m as [|[k0 e0] m IH]; simpl; trivial.
  destruct (same_value_zero k0 k') eqn:E; [discriminate|].
  intros H. destruct (same_value_zero k0 k); simpl; [now apply IH|].
  rewrite E. now apply IH.
Qed.

Lemma unique_keys_delete (k : Key) (m : JsMap) :
  unique_keys m = true -> unique_keys (map_delete k m) = true.
Proof.
  induction m as [|[k0 e0] m IH]; simpl; trivial.
  intros H. apply andb_true_iff in H. destruct H as [H0 Hu].
  destruct (same_value_zero k0 k); simpl; [now apply IH|].
  apply negb_true_iff in H0.
  rewrite (map_has_delete_absent k k0 m H0). simpl. now apply IH.
Qed.

Lemma map_has_set_absent (k k' : Key) (e : CacheObject) (m : JsMap) :
  same_value_zero k k' = false -> map_has k' m = false ->
  map_has k' (map_set k e m) = false.
Proof.
  intros Hne. unfold map_has. rewrite (map_get_set_other k k' e m Hne).
  trivial.
Qed.

Lemma unique_keys_set (k : Key) (e : CacheObject) (m : JsMap) :
  unique_keys m = true -> unique_keys (map_set k e m) = true.
Proof.
  induction m as [|[k0 e0] m IH]; simpl; trivial.
  intros H. apply andb_true_iff in H. destruct H as [H0 Hu].
  destruct (same_value_zero k0 k) eqn:E; simpl.
  - now rewrite H0, Hu.
  - apply negb_true_iff in H0.
    rewrite same_value_zero_sym in E.
    rewrite (map_has_set_absent k k0 e m E H0). simpl. now apply IH.
Qed.

Lemma unique_keys_prune_loop (expired : Z)
  (entries : list (Key * CacheObject)) (i : nat) (m : JsMap) :
  unique_keys m = true -> unique_keys (prune_loop expired entries i m) = true.
Proof.
  revert i m. induction entries as [|[k0 e0] entries IH]; intros i m Hu; simpl.
  - exact Hu.
  - destruct (i <? map_size m)%nat; trivial.
    apply IH. destruct (timestamp e0 <? expired); trivial.
    now apply unique_keys_delete.
Qed.

Lemma step_unique_keys (c : Cache) (call : Call) :
  unique_keys (map c) = true -> unique_keys (map (step c call)) = true.
Proof.
  intros Hu.
  destruct call as [w k v o|k t|k t|k| |w]; simpl; trivial.
  - unfold add.
    destruct (empty_key k); simpl; trivial.
    destruct (nullish v); simpl; trivial.
    destruct (limit_reached c (map c)).
    + unfold Array_from.
      destruct (map c) as [|[oldest e] rest] eqn:Em; cbn [snd map].
      * now rewrite Em.
      * apply unique_keys_set. now apply unique_keys_delete.
    + cbn [snd map]. now apply unique_keys_set.
  - unfold pop.
    destruct (negb (map_has k (map c))).
    + destruct (truthy_flag t || truthy_flag (throwOnEmpty (options c))); trivial.
    + destruct (get c k t); simpl; trivial.
      now apply unique_keys_delete.
  - unfold prune.
    destruct (negb (truthy_number (lifetime_duration (options c)))); trivial.
    simpl. now apply unique_keys_prune_loop.
Qed.

Lemma run_unique_keys (calls : list Call) (c : Cache) :
  unique_keys (map c) = true -> unique_keys (map (run c calls)) = true.
Proof.
  revert c. induction calls as [|call calls IH]; intros c Hu; simpl; trivial.
  apply IH. now apply step_unique_keys.
Qed.

Lemma map_delete_length_unique (k : Key) (m : JsMap) :
  unique_keys m = true -> map_has k m = true ->
  (length (map_delete k m) + 1 = length m)%nat.
Proof.
  induction m as [|[k0 e0] m IH]; simpl.
  - unfold map_has. simpl. discriminate.
  - intros H Hh. apply andb_true_iff in H. destruct H as [H0 Hu].
    apply negb_true_iff in H0.
    unfold map_has in Hh. simpl in Hh.
    destruct (same_value_zero k0 k) eqn:E.
    + assert (Hk : map_has k m = false).
      { unfold map_has in *. rewrite same_value_zero_sym in E.
        now rewrite (map_get_cong k k0 m E). }
      rewrite (map_delete_absent k m Hk). lia.
    + simpl. specialize (IH Hu Hh). lia.
Qed.

(** X19: in a cache built by any calls from a new one no key is stored
    twice, and [pop] of a key that is in the store takes exactly one entry
    out. *)
Theorem pop_removes_one_entry (o : CacheOptions) (calls : list Call)
  (k : Key) (t : option bool) :
  has (run (new_Cache o) calls) k = true ->
  unique_keys (map (run (new_Cache o) calls)) = true
  /\ (map_size (map (snd (pop (run (new_Cache o) calls) k t))) + 1
      = map_size (map (run (new_Cache o) calls)))%nat.
Proof.
  intros Hh.
  assert (Hu : unique_keys (map (run (new_Cache o) calls)) = true)
    by (apply run_unique_keys; reflexivity).
  split; [exact Hu|].
  unfold has in Hh.
  destruct (map_get k (map (run (new_Cache o) calls))) as [e|] eqn:E.
  - rewrite (pop_present _ k e t E). unfold map_size. simpl.
    now apply map_delete_length_unique.
  - unfold map_has in Hh. rewrite E in Hh. discriminate.
Qed.

Lemma pop_removes_one_entry_witness :
  (map_size (map (snd (pop (add_a_then_b no_options) key_a None))) + 1
   = map_size (map (add_a_then_b no_options)))%nat.
Proof.
  exact (proj2 (pop_removes_one_entry no_options
                  [CallAdd (world_at 0) key_a (JsNumber 1) no_addOptions;
                   CallAdd (world_at 0) key_b (JsNumber 2) no_addOptions]
                  key_a None eq_refl)).
Defined.

(** ** Replacing keeps the place *)

Lemma map_set_keys (k : Key) (e : CacheObject) (m : JsMap) :
  map_has k m = true -> List.map fst (map_set k e m) = List.map fst m.
Proof.
  unfold map_has.
  induction m as [|[k0 e0] m IH]; simpl; [discriminate|].
  destruct (same_value_zero k0 k); simpl; trivial.
  intros H. now rewrite IH.
Qed.

(** X20: [add] on a key that is in the store, below the limit, puts the new
    value and the time of the call in the entry and leaves the order of the
    keys as it was: the key is no younger for the eviction than before. *)
Theorem add_replace_keeps_order (w : World) (c : Cache) (k : Key)
  (v : Value) (o : AddOptions) :
  valid_key k = true -> valid_value v = true -> has c k = true ->
  limit_reached c (map c) = false ->
  List.map fst (map (snd (add w c k v o))) = List.map fst (map c)
  /\ map_get k (map (snd (add w c k v o)))
     = Some (mkCacheObject k (stored_value w (resolve_addAs c o) v) (now w)).
Proof.
  unfold valid_key, valid_value, has. intros Hk Hv Hh Hl.
  apply negb_true_iff in Hk. apply negb_true_iff in Hv.
  unfold add. rewrite Hk, Hv, Hl. cbn [orb snd map]. split.
  - now apply map_set_keys.
  - apply map_get_set_same.
Qed.

Lemma add_replace_keeps_order_witness :
  List.map fst
    (map (snd (add (world_at 7) (add_a_then_b (options_limit 3)) key_a
                 (JsNumber 9) no_addOptions)))
  = [key_a; key_b]
  /\ map_get key_a
       (map (snd (add (world_at 7) (add_a_then_b (options_limit 3)) key_a
                    (JsNumber 9) no_addOptions)))
     = Some (mkCacheObject key_a (JsNumber 9) 7).
Proof.
  exact (add_replace_keeps_order (world_at 7) (add_a_then_b (options_limit 3))
           key_a (JsNumber 9) no_addOptions eq_refl eq_refl eq_refl eq_refl).
Defined.
